(** * OwnParser: density-based pruning and text reflow

    A shallow embedding of [src/main.py] and [src/config.py].

    - [Parser] holds the tag tree, [_calc_depth], [_calc_density] and the
      recursive pruning of [Parser.main_content].
    - [Formatter] holds [_domain_name], [_get_urls], [_add_urls] and the
      three stages of [Formatter.prepare_text] (paragraph separation, link
      annotation, line wrapping).

    Python values are represented as follows.
    - [str] is a list of characters.  A character is an [ascii]; its 256
      values are read as the code points U+0000 to U+00FF.
    - [int] is [Z].  The two real-valued quantities of the pruning (the
      coefficient and the threshold) are rationals [Q].
    - An exception is a value [Raise e] of the [result] type; it aborts
      the computation as an uncaught exception does.
    - A [dict] is an association list in insertion order.
    - The pruning changes the tree in place.  Here a call receives the
      states of the nodes it works on and returns their states after the
      call; [Parser.rebuild] puts them back into their parent.
    - The interpreter bounds the depth of recursion.  [limit] is the
      number of nested self-calls of [main_content] that are available;
      a self-call beyond it raises [RecursionError]. *)

From Stdlib Require Import List String Ascii ZArith QArith Lia Bool Arith.
Import ListNotations.

Local Open Scope Z_scope.

(** ** Results and exceptions *)

(** The exceptions that the modelled code can raise.  [OutsideModel] is
    not one of them: it marks a call of the regular-expression library
    with arguments to which this development gives no meaning (see
    [Formatter.re_sub]). *)
Inductive exn : Type :=
| UnboundLocalError
| RecursionError
| KeyError
| AttributeError
| OutsideModel.

Inductive result (A : Type) : Type :=
| Ok (a : A)
| Raise (e : exn).

Arguments Ok {A} a.
Arguments Raise {A} e.

Definition bind {A B : Type} (r : result A) (k : A -> result B) : result B :=
  match r with
  | Ok a => k a
  | Raise e => Raise e
  end.

Declare Scope result_scope.
Delimit Scope result_scope with result.
Notation "x <- c ;; k" := (bind c (fun x => k))
  (at level 61, c at next level, right associativity) : result_scope.
Local Open Scope result_scope.

(** [mapM f l] runs [f] on the elements of [l] from left to right and stops
    at the first exception. *)
Fixpoint mapM {A B : Type} (f : A -> result B) (l : list A) : result (list B) :=
  match l with
  | [] => Ok []
  | a :: l' => b <- f a ;; bs <- mapM f l' ;; Ok (b :: bs)
  end.

(** [repeat_call k call x] performs [call] [k] times in sequence, each time
    on the state left by the previous call. *)
Fixpoint repeat_call {X : Type} (k : nat) (call : X -> result X) (x : X) : result X :=
  match k with
  | O => Ok x
  | S k' => x' <- call x ;; repeat_call k' call x'
  end.

(** ** Strings *)

Abbreviation str := (list ascii) (only parsing).

Definition lit (s : string) : str := list_ascii_of_string s.

(** ** Configuration ([src/config.py]) *)

Record Config : Type := mkConfig {
  STRATEGY : option string;   (* a Python string, or [None] *)
  CUSTOM_COEFF : Q;
  FORCED : bool;
  MAX_LENGTH : Z
}.


(** ** The tag tree *)

(** Modelled from the spec: the tree is built by the HTML parser, a
    library outside the repository.  Section 3 describes its nodes
    (TreeNode) by a tag name, attributes, an ordered sequence of children
    owned by their parent and a derived text; as the calls of the source
    require ([contents], [find_all], [text]), a child is either a tag or a
    piece of text.  The root (the soup object) is itself a tag. *)
Unset Elimination Schemes.
Inductive node : Type :=
| NavigableString (s : str)
| Tag (name : string) (attrs : list (string * str)) (contents : list node).
Set Elimination Schemes.

Section node_induction.
Variable P : node -> Prop.
Hypothesis P_string : forall s, P (NavigableString s).
Hypothesis P_tag : forall name attrs contents,
    Forall P contents -> P (Tag name attrs contents).

Fixpoint node_ind (n : node) : P n :=
  match n with
  | NavigableString s => P_string s
  | Tag name attrs contents =>
      P_tag name attrs contents
        ((fix all (l : list node) : Forall P l :=
            match l with
            | [] => Forall_nil P
            | c :: l' => @Forall_cons _ P c l' (node_ind c) (all l')
            end) contents)
  end.
End node_induction.

Module Parser.

Definition is_tag (n : node) : bool :=
  match n with
  | Tag _ _ _ => true
  | NavigableString _ => false
  end.

Definition contents (n : node) : list node :=
  match n with
  | Tag _ _ cs => cs
  | NavigableString _ => []
  end.

(** [node.name == tag] *)
Definition has_name (tag : string) (n : node) : bool :=
  match n with
  | Tag name _ _ => String.eqb name tag
  | NavigableString _ => false
  end.

(** [node.find_all(True, recursive=False)]: the direct children that are
    tags, in document order. *)
Definition find_all_children (n : node) : list node :=
  filter is_tag (contents n).

(** All nodes strictly below [n], in document order. *)
Fixpoint descendants (n : node) : list node :=
  match n with
  | NavigableString _ => []
  | Tag _ _ cs => flat_map (fun c => c :: descendants c) cs
  end.

(** [node.find_all(tag)] *)
Definition find_all (tag : string) (n : node) : list node :=
  filter (has_name tag) (descendants n).

(** The truth value of [node.h1], that is of [node.find('h1')]. *)
Definition has_h1 (n : node) : bool :=
  existsb (has_name "h1") (descendants n).

(** [Parser._calc_depth]: a text node has no [contents] attribute and a tag
    with empty contents is falsy, both give 0; otherwise one more than the
    maximum over the contents (text nodes included). *)
Fixpoint _calc_depth (n : node) : Z :=
  match n with
  | NavigableString _ => 0
  | Tag _ _ [] => 0
  | Tag _ _ (c :: cs) => fold_left Z.max (map _calc_depth cs) (_calc_depth c) + 1
  end.

(** [Parser._calc_density]: the dictionary from each node to its depth.
    The keys are the node objects; as section 3 of the spec has it
    (DensityMap: identity, not value, is the key), the dictionary has one
    entry per node of [nodes], in order. *)
Definition _calc_density (nodes : list node) : list (node * Z) :=
  map (fun n => (n, _calc_depth n)) nodes.

Definition keys (density : list (node * Z)) : list node := map fst density.
Definition values (density : list (node * Z)) : list Z := map snd density.
Definition sum (l : list Z) : Z := fold_left Z.add l 0.

Definition Qlt_bool (x y : Q) : bool := negb (Qle_bool y x).

Section pruning.
Variable config : Config.
Variable forced : bool.

(** The threshold [avg] as it stands when the inner loop starts
    (lines 144-153).  [None] at the outer level means that the node is
    skipped by [continue]; [Some None] means that no branch assigned the
    local variable [avg]. *)
Definition threshold (strategy : string) (density : list (node * Z))
  : option (option Q) :=
  if String.eqb strategy "AVG" then
    if (Z.of_nat (List.length (values density)) =? 0)
    then None
    else Some (Some (inject_Z (sum (values density))
                     / inject_Z (Z.of_nat (List.length (values density))))%Q)
  else if String.eqb strategy "CUSTOM" then
    Some (Some (inject_Z (sum (values density)) * CUSTOM_COEFF config)%Q)
  else Some None.

(** The three [continue] guards of the inner loop (lines 162-171). *)
Definition content_tag (n : node) : bool :=
  has_name "p" n || has_name "h1" n || has_name "h2" n.

Definition kept_by_paragraphs (n : node) : bool :=
  forced && (3 <? Z.of_nat (List.length (find_all "p" n))).

(** The inner loop (lines 159-175) over the snapshot [keys]: for each
    node, whether [decompose] is called on it.  Reading the unassigned
    [avg] raises. *)
Fixpoint prune_level (avg : option Q) (density : list (node * Z))
  : result (list bool) :=
  match density with
  | [] => Ok []
  | (n, d) :: rest =>
      if content_tag n then
        marks <- prune_level avg rest ;; Ok (false :: marks)
      else if has_h1 n then
        marks <- prune_level avg rest ;; Ok (false :: marks)
      else if kept_by_paragraphs n then
        marks <- prune_level avg rest ;; Ok (false :: marks)
      else
        match avg with
        | None => Raise UnboundLocalError
        | Some a =>
            marks <- prune_level avg rest ;;
            Ok (Qlt_bool (inject_Z d) a :: marks)
        end
  end.

(** [node.decompose()] detaches the node from its parent and empties the
    object; the object itself stays a key of the dictionary. *)
Definition decomposed : node := Tag "" [] [].

Fixpoint apply_marks (marks : list bool) (nodes : list node) : list node :=
  match marks, nodes with
  | m :: ms, n :: ns => (if m then decomposed else n) :: apply_marks ms ns
  | _, _ => []
  end.

(** The contents of a parent after the pass over its child tags: text
    nodes stay, a decomposed child is gone, every other child tag is in
    the state [state] records for it. *)
Fixpoint rebuild (cs : list node) (marks : list bool) (state : list node)
  : list node :=
  match cs with
  | [] => []
  | NavigableString s :: cs' => NavigableString s :: rebuild cs' marks state
  | Tag name attrs sub :: cs' =>
      match marks, state with
      | m :: ms, k :: ks =>
          if m then rebuild cs' ms ks else k :: rebuild cs' ms ks
      | _, _ => Tag name attrs sub :: cs'
      end
  end.

Definition set_children (n : node) (marks : list bool) (state : list node) : node :=
  match n with
  | Tag name attrs cs => Tag name attrs (rebuild cs marks state)
  | NavigableString s => NavigableString s
  end.

(** One iteration of the outer loop (lines 137-179) on the key [n].
    [self_call] stands for [self.main_content(density, soup, forced)]. *)
Definition visit (self_call : list node -> result (list node))
           (strategy : string) (n : node) : result node :=
  let childs := find_all_children n in
  let density := _calc_density childs in
  match threshold strategy density with
  | None => Ok n
  | Some avg =>
      marks <- prune_level avg density ;;
      state <- repeat_call (List.length (keys density)) self_call
                 (apply_marks marks (keys density)) ;;
      Ok (set_children n marks state)
  end.

(** [main_content] called with a dictionary (lines 135-181).  The
    argument and the result are the states of the key nodes before and
    after the call.  [limit] is the number of nested self-calls still
    available below the running frame. *)
Fixpoint main_content_rec (limit : nat) (density_keys : list node)
  : result (list node) :=
  match STRATEGY config with
  | None => Ok density_keys
  | Some strategy =>
      mapM (visit (match limit with
                   | O => fun _ => Raise RecursionError
                   | S l => main_content_rec l
                   end) strategy) density_keys
  end.

(** [main_content(soup=soup, forced=forced)], the entry point
    (lines 128-133), followed by the same body run on the dictionary of
    the root's children. *)
Definition main_content (limit : nat) (soup : node) : result node :=
  let children := find_all_children soup in
  let density := _calc_density children in
  state1 <- match limit with
            | O => Raise RecursionError
            | S l => main_content_rec l (keys density)
            end ;;
  state2 <- main_content_rec limit state1 ;;
  Ok (set_children soup (map (fun _ => false) state2) state2).

End pruning.

(** *** Notions used to state the properties of the pruning *)





(** The strategies that the code tests for, and [None]. *)
Definition recognized (strategy : option string) : Prop :=
  strategy = None \/ strategy = Some "AVG"%string \/ strategy = Some "CUSTOM"%string.


(** *** Sample documents *)

Definition text (s : string) : node := NavigableString (lit s).
Definition div (cs : list node) : node := Tag "div" [] cs.
Definition document (cs : list node) : node := Tag "[document]" [] cs.
Definition html (cs : list node) : node := Tag "html" [] cs.

(** [<div><div><div><div>x</div></div></div></div>] *)
Definition sample_nested : node := div [div [div [div [text "x"]]]].

(** [<p>hello</p>] and [<div><p>hello</p></div>] *)
Definition sample_p : node := Tag "p" [] [text "hello"].

(** [<div>b</div>] *)
Definition sample_flat : node := div [text "b"].


Definition sample_menu : node := document [html [sample_nested; sample_flat]].

Definition sample_plain : node := document [html [sample_p]].



Definition no_strategy_config : Config :=
  {| STRATEGY := None; CUSTOM_COEFF := 1 # 2; FORCED := true; MAX_LENGTH := 80 |}.

Definition unknown_strategy_config : Config :=
  {| STRATEGY := Some "MEDIAN"%string; CUSTOM_COEFF := 1 # 2;
     FORCED := true; MAX_LENGTH := 80 |}.

End Parser.

(** * The formatter *)

Module Formatter.
Import Parser.

Local Open Scope char_scope.

(** ** Character classes and [str] methods *)

Definition newline : ascii := "010".

(** [str.isspace] on one character, which is also the class [\s] of the
    [re] module: U+0009-U+000D, U+001C-U+0020, U+0085 and U+00A0. *)
Definition isspace (c : ascii) : bool :=
  let n := nat_of_ascii c in
  ((9 <=? n) && (n <=? 13) || (28 <=? n) && (n <=? 32)
   || (n =? 133) || (n =? 160))%nat.

(** The class [\w] of the [re] module: alphanumeric characters and the
    underscore. *)
Definition isword (c : ascii) : bool :=
  let n := nat_of_ascii c in
  ((48 <=? n) && (n <=? 57) || (65 <=? n) && (n <=? 90) || (n =? 95)
   || (97 <=? n) && (n <=? 122) || (n =? 170) || (178 <=? n) && (n <=? 179)
   || (n =? 181) || (185 <=? n) && (n <=? 186) || (188 <=? n) && (n <=? 190)
   || (192 <=? n) && (n <=? 214) || (216 <=? n) && (n <=? 246)
   || (248 <=? n))%nat.

(** The class [[\s.,!?;\()-]]. *)
Definition isbreak (c : ascii) : bool :=
  isspace c
  || Ascii.eqb c "." || Ascii.eqb c "," || Ascii.eqb c "!" || Ascii.eqb c "?"
  || Ascii.eqb c ";" || Ascii.eqb c "(" || Ascii.eqb c ")" || Ascii.eqb c "-".

Definition str_eqb (a b : str) : bool :=
  if list_eq_dec ascii_dec a b then true else false.

Fixpoint lstrip (s : str) : str :=
  match s with
  | c :: s' => if isspace c then lstrip s' else s
  | [] => []
  end.

Definition rstrip (s : str) : str := rev (lstrip (rev s)).

Definition strip (s : str) : str := rstrip (lstrip s).

Fixpoint startswith (prefix s : str) : bool :=
  match prefix, s with
  | [], _ => true
  | p :: prefix', c :: s' => Ascii.eqb p c && startswith prefix' s'
  | _ :: _, [] => false
  end.

(** [sub in s] *)
Fixpoint contains (sub s : str) : bool :=
  startswith sub s ||
  match s with
  | [] => false
  | _ :: s' => contains sub s'
  end.

(** The scan of [str.replace] for a non-empty [old]: [skip] characters of
    a match just replaced are still to be passed over. *)
Fixpoint replace_from (old new : str) (skip : nat) (s : str) : str :=
  match s with
  | [] => []
  | c :: s' =>
      match skip with
      | S k => replace_from old new k s'
      | O =>
          if startswith old s
          then new ++ replace_from old new (List.length old - 1) s'
          else c :: replace_from old new 0 s'
      end
  end.

(** [s.replace(old, new)]: every occurrence found scanning from the left,
    without overlap; an empty [old] matches before every character and at
    the end. *)
Definition replace (old new s : str) : str :=
  match old with
  | [] => new ++ flat_map (fun c => c :: new) s
  | _ :: _ => replace_from old new 0 s
  end.

(** The scan of [str.split] for a non-empty separator; [piece] is the part
    collected since the last separator. *)
Fixpoint split_from (sep : str) (skip : nat) (piece : str) (s : str) : list str :=
  match s with
  | [] => [piece]
  | c :: s' =>
      match skip with
      | S k => split_from sep k piece s'
      | O =>
          if startswith sep s
          then piece :: split_from sep (List.length sep - 1) [] s'
          else split_from sep 0 (piece ++ [c]) s'
      end
  end.

Definition split (sep s : str) : list str := split_from sep 0 [] s.


(** ** Tags as the formatter reads them *)

(** [node.text]: the text nodes below the node, concatenated. *)
Fixpoint text (n : node) : str :=
  match n with
  | NavigableString s => s
  | Tag _ _ cs => flat_map text cs
  end.

(** [node[key]] *)
Fixpoint getitem (attrs : list (string * str)) (key : string) : result str :=
  match attrs with
  | [] => Raise KeyError
  | (k, v) :: attrs' => if String.eqb k key then Ok v else getitem attrs' key
  end.

Definition attrs (n : node) : list (string * str) :=
  match n with
  | Tag _ a _ => a
  | NavigableString _ => []
  end.

(** ** Link markers *)

Definition strip_prefix (prefix s : str) : option str :=
  if startswith prefix s then Some (skipn (List.length prefix) s) else None.

(** [re.match(r'http(s)?://', url)]: the matched scheme, if any. *)
Definition match_scheme (url : str) : option str :=
  if startswith (lit "https://") url then Some (lit "https://")
  else if startswith (lit "http://") url then Some (lit "http://")
  else None.

(** [Formatter._domain_name] (line 214).  [group] on [None] raises. *)
Definition _domain_name (url : str) : result str :=
  match match_scheme url with
  | None => Raise AttributeError
  | Some scheme =>
      Ok (scheme ++ hd [] (split (lit "/") (last (split (lit "//") url) [])))
  end.

(** A dictionary with string keys, in insertion order. *)
Definition dict : Type := list (str * str).

(** [d.update({key: value})]: an existing key keeps its place and takes
    the new value. *)
Fixpoint update (d : dict) (key value : str) : dict :=
  match d with
  | [] => [(key, value)]
  | (k, v) :: d' =>
      if str_eqb k key then (k, value) :: d' else (k, v) :: update d' key value
  end.

(** The bracketed form of one target (lines 238-242); the condition
    [("http" or "htpps") not in href] tests for "http" only. *)
Definition bracketed (domain href : str) : str :=
  if negb (contains (lit "http") href)
  then lit "[" ++ domain ++ href ++ lit "]"
  else lit "[" ++ href ++ lit "]".

Fixpoint _get_urls_loop (domain : str) (urls : list node) (r_urls : dict)
  : result dict :=
  match urls with
  | [] => Ok r_urls
  | url :: rest =>
      href <- getitem (attrs url) "href" ;;
      _get_urls_loop domain rest (update r_urls (bracketed domain href) (text url))
  end.

(** [Formatter._get_urls]: the dictionary from bracketed target to display
    text. *)
Definition _get_urls (urls : list node) (domain : str) : result dict :=
  domain' <- _domain_name domain ;;
  _get_urls_loop domain' urls [].

(** The characters that stand for themselves in a pattern of [re]. *)
Definition plain_char (c : ascii) : bool :=
  negb (existsb (Ascii.eqb c) (lit ".^$*+?{}[]\|()")).

(** [re.sub(pattern, repl, s)].  The development gives it a meaning on
    patterns made of plain characters with a replacement free of
    backslashes: there it replaces every occurrence of the pattern, like
    [str.replace].  Other calls are outside the model and are reported
    as [OutsideModel], which is no exception of Python. *)
Definition re_sub (pattern repl s : str) : result str :=
  if forallb plain_char pattern && negb (existsb (Ascii.eqb "\") repl)
  then Ok (replace pattern repl s)
  else Raise OutsideModel.

(** [Formatter._add_urls] *)
Fixpoint _add_urls (text : str) (prepared_urls : dict) : result str :=
  match prepared_urls with
  | [] => Ok text
  | (url, description) :: rest =>
      text' <- re_sub description (description ++ lit " " ++ url) text ;;
      _add_urls text' rest
  end.

(** ** Paragraph separation (lines 288-292) *)

Definition separate (string p_text : str) : str :=
  if str_eqb p_text [] then string
  else replace (strip p_text)
               ([newline] ++ strip p_text ++ [newline]) string.

Definition separate_paragraphs (string : str) (paragr : list node) : str :=
  fold_left (fun s p => separate s (text p)) paragr string.

(** ** Tokens (line 299) *)

Definition nonspace (c : ascii) : bool := negb (isspace c).

Fixpoint takewhile (f : ascii -> bool) (s : str) : str :=
  match s with
  | c :: s' => if f c then c :: takewhile f s' else []
  | [] => []
  end.

(** The position of the last [c] in [s]. *)
Fixpoint last_index (c : ascii) (s : str) : option nat :=
  match s with
  | [] => None
  | x :: s' =>
      match last_index c s' with
      | Some j => Some (S j)
      | None => if Ascii.eqb x c then Some O else None
      end
  end.

(** Length of the match of [\[(https?://[^\s]+)\]] at the start of [s].
    The greedy [[^\s]+] takes the whole run of non-blank characters and
    gives characters back until a closing bracket follows, keeping at
    least one. *)
Definition match_url (s : str) : option nat :=
  match strip_prefix (lit "[http") s with
  | None => None
  | Some s1 =>
      let '(s2, k) := if startswith (lit "s") s1
                      then (skipn 1 s1, 1%nat) else (s1, 0%nat) in
      match strip_prefix (lit "://") s2 with
      | None => None
      | Some s3 =>
          match last_index "]" (takewhile nonspace s3) with
          | Some (S j) => Some (5 + k + 3 + S j + 1)%nat
          | _ => None
          end
      end
  end.

(** Length of the match of [[\w]+]. *)
Definition match_word (s : str) : option nat :=
  match takewhile isword s with
  | [] => None
  | w => Some (List.length w)
  end.

(** Length of the match of [[\s.,!?;\()-]]. *)
Definition match_break (s : str) : option nat :=
  match s with
  | c :: _ => if isbreak c then Some 1%nat else None
  | [] => None
  end.

(** The alternatives in the order of the pattern. *)
Definition match_token (s : str) : option nat :=
  match match_url s with
  | Some n => Some n
  | None =>
      match match_word s with
      | Some n => Some n
      | None => match_break s
      end
  end.

(** The scan of [re.findall]: the matches from left to right, without
    overlap; a character where nothing matches is passed over. *)
Fixpoint findall_from (skip : nat) (s : str) : list str :=
  match s with
  | [] => []
  | _ :: s' =>
      match skip with
      | S k => findall_from k s'
      | O =>
          match match_token s with
          | Some n => firstn n s :: findall_from (n - 1) s'
          | None => findall_from 0 s'
          end
      end
  end.

(** The first component [word[0]] of every tuple of [sp2]. *)
Definition findall (s : str) : list str := findall_from 0 s.

(** ** Line wrapping (lines 301-327) *)

Definition len (s : str) : Z := Z.of_nat (List.length s).

(** One iteration of the loop on the state [(length, new_string)]. *)
Definition wrap_step (max_length : Z) (state : Z * str) (word : str) : Z * str :=
  let '(length, new_string) := state in
  let w := if (length =? 1)%Z then lstrip word else word in
  let length := length + len word in
  let '(length, new_string) :=
    if str_eqb w [newline] then (1, new_string ++ [newline])
    else (length, new_string) in
  if (max_length <? length)%Z then (len w + 1, new_string ++ [newline] ++ w)
  else if (length =? max_length)%Z then (1, new_string ++ w ++ [newline])
  else (length, new_string ++ w).

Definition wrap_loop (max_length : Z) (sp2 : list str) : Z * str :=
  fold_left (wrap_step max_length) sp2 (1, []).

(** The wrapping stage of [prepare_text]: tokens, loop and the final
    [replace]. *)
Definition wrap (text_with_urls : str) (max_length : Z) : str :=
  replace [newline; newline; newline] [newline]
    (snd (wrap_loop max_length (findall text_with_urls))).

(** ** [Formatter.prepare_text] *)

Definition prepare_text (domain : str) (soup : node) (max_length : Z) : result str :=
  let paragr := find_all "p" soup in
  let urls := find_all "a" soup in
  let string := text soup in
  let string := replace [newline] [] string in
  let string := strip string in
  let string := replace (lit "\s+") (lit " ") string in
  let string := separate_paragraphs string paragr in
  prepared_urls <- _get_urls urls domain ;;
  text_with_urls <- _add_urls string prepared_urls ;;
  Ok (wrap text_with_urls max_length).

(** *** Notions used to state the properties of the wrapping *)


(** The three kinds of matches of the pattern of line 299. *)
Definition is_url (tok : str) : Prop :=
  exists s R,
    (s = [] \/ s = lit "s") /\
    tok = lit "[http" ++ s ++ lit "://" ++ R ++ lit "]" /\
    R <> [] /\ forallb nonspace R = true.

Definition is_word (tok : str) : Prop :=
  tok <> [] /\ forallb isword tok = true.

Definition is_break (tok : str) : Prop :=
  exists c, tok = [c] /\ isbreak c = true.

(** A token is not empty; it holds no blank character, or it is one blank
    character. *)
Definition token_shape (tok : str) : Prop :=
  tok <> [] /\
  (forallb nonspace tok = true \/ exists c, tok = [c] /\ isspace c = true).



(** A list of tokens in which every bracketed link reaches as far as
    the scan would take it: no closing bracket follows it in the same
    run of non-blank characters. *)
Fixpoint well_cut (toks : list str) : Prop :=
  match toks with
  | [] => True
  | tok :: rest =>
      ((is_url tok /\ ~ In "]"%char (takewhile nonspace (List.concat rest)))
       \/ is_word tok \/ is_break tok)
      /\ well_cut rest
  end.

(** *** Sample anchors and texts *)

Definition base_url : str := lit "https://example.com/blog".

(** [<a href="/a">About</a>] and [<a href="/b">About</a>] *)
Definition anchor_a : node := Tag "a" [("href"%string, lit "/a")] [Parser.text "About"].
Definition anchor_b : node := Tag "a" [("href"%string, lit "/b")] [Parser.text "About"].

(** [<a name="top">Top</a>] and [<a href="">Home</a>] *)
Definition anchor_without_href : node :=
  Tag "a" [("name"%string, lit "top")] [Parser.text "Top"].
Definition anchor_empty_href : node :=
  Tag "a" [("href"%string, [])] [Parser.text "Home"].

(** [<html><p>Go <a name="top">Top</a></p></html>] *)
Definition page_with_named_anchor : node :=
  document [html [Tag "p" [] [Parser.text "Go "; anchor_without_href]]].

End Formatter.

(** * Properties of the pruning *)

Module ParserFacts.
Import Parser.

(** ** The result monad *)

Lemma bind_Ok {A B : Type} (r : result A) (k : A -> result B) (b : B) :
  bind r k = Ok b -> exists a, r = Ok a /\ k a = Ok b.
Proof.
  destruct r as [a|e]; simpl; intros H; [eauto | discriminate].
Qed.



(** ** Structure of the [pruned] relation *)













(** ** One level of pruning *)

Section level_facts.
Variable config : Config.
Variable forced : bool.

(** What the inner loop guarantees about every node it decomposes. *)
Lemma prune_level_marks (avg : option Q) :
  forall density marks,
    prune_level forced avg density = Ok marks ->
    Forall2 (fun nd m =>
               m = true ->
               content_tag (fst nd) = false /\ has_h1 (fst nd) = false /\
               kept_by_paragraphs forced (fst nd) = false /\
               exists a, avg = Some a /\ Qlt_bool (inject_Z (snd nd)) a = true)
            density marks.
Proof.
  induction density as [|[n d] rest IH]; simpl; intros marks H.
  - injection H as <-. constructor.
  - destruct (content_tag n) eqn:Hc;
      [|destruct (has_h1 n) eqn:Hh;
        [|destruct (kept_by_paragraphs forced n) eqn:Hp;
          [|destruct avg as [a|]; [|discriminate]]]];
      apply bind_Ok in H as (ms & Hms & H); injection H as <-;
      (constructor; [simpl|now apply IH]); try discriminate.
    intros Hlt. repeat split; eauto.
Qed.








End level_facts.

(** ** Depth of the recursion *)



Lemma fold_left_max_ge (l : list Z) :
  forall a x, x = a \/ In x l -> x <= fold_left Z.max l a.
Proof.
  induction l as [|b l IH]; simpl; intros a x H.
  - destruct H as [->|[]]. lia.
  - destruct H as [->|[->|H]].
    + etransitivity; [|apply IH; left; reflexivity]. lia.
    + etransitivity; [|apply IH; left; reflexivity]. lia.
    + apply IH. now right.
Qed.

Lemma _calc_depth_nonneg (n : node) : 0 <= _calc_depth n.
Proof.
  induction n as [s|name attrs cs IH] using node_ind; simpl; [lia|].
  destruct cs as [|c cs]; [lia|].
  apply Forall_inv in IH.
  pose proof (fold_left_max_ge (map _calc_depth cs) (_calc_depth c) (_calc_depth c)
                (or_introl eq_refl)).
  lia.
Qed.

Lemma _calc_depth_child (name : string) (attrs : list (string * str))
      (cs : list node) (c : node) :
  In c cs -> _calc_depth c + 1 <= _calc_depth (Tag name attrs cs).
Proof.
  destruct cs as [|c0 cs]; [intros []|]. intros H. simpl _calc_depth.
  apply Z.add_le_mono_r, fold_left_max_ge.
  destruct H as [->|H]; [now left | right; now apply in_map].
Qed.



Section depth_facts.
Variable config : Config.
Variable forced : bool.






End depth_facts.

(** ** Which exceptions the pruning can raise *)



Section exception_facts.
Variable config : Config.
Variable forced : bool.



Lemma rebuild_id (cs : list node) :
  rebuild cs (map (fun _ => false) (filter is_tag cs)) (filter is_tag cs) = cs.
Proof.
  induction cs as [|[s|name attrs sub] cs IH]; simpl; congruence.
Qed.

(** With [STRATEGY = None] the guard of line 135 skips the whole body. *)
Lemma main_content_no_strategy (limit : nat) (soup : node) :
  STRATEGY config = None ->
  main_content config forced (S limit) soup = Ok soup.
Proof.
  intros Hs.
  assert (Hrec : forall l ks, main_content_rec config forced l ks = Ok ks).
  { intros [|l] ks; simpl; now rewrite Hs. }
  unfold main_content, keys, _calc_density.
  rewrite map_map, map_id, Hrec. cbn [bind]. rewrite Hrec. cbn [bind].
  destruct soup as [s|name attrs cs]; [reflexivity|].
  unfold find_all_children; simpl. now rewrite rebuild_id.
Qed.

(** With a strategy that is neither "AVG" nor "CUSTOM" the threshold is
    never assigned, so nothing is ever decomposed: a call that returns
    hands the tree back as it was. *)
Lemma prune_level_unbound :
  forall density marks,
    prune_level forced None density = Ok marks ->
    marks = map (fun _ => false) density.
Proof.
  induction density as [|[n d] rest IH]; simpl; intros marks H.
  - now injection H as <-.
  - destruct (content_tag n);
      [|destruct (has_h1 n);
        [|destruct (kept_by_paragraphs forced n); [|discriminate]]];
      apply bind_Ok in H as (ms & Hms & H); injection H as <-;
      now rewrite (IH _ Hms).
Qed.

Lemma apply_marks_none (nodes : list node) :
  apply_marks (map (fun _ => false) nodes) nodes = nodes.
Proof. induction nodes as [|n nodes IH]; simpl; congruence. Qed.

Lemma repeat_call_fixed {X : Type} (call : X -> result X) :
  (forall x x', call x = Ok x' -> x' = x) ->
  forall k x x', repeat_call k call x = Ok x' -> x' = x.
Proof.
  intros Hcall. induction k as [|k IH]; simpl; intros x x' H.
  - now injection H.
  - apply bind_Ok in H as (y & Hy & H).
    apply Hcall in Hy. subst y. now apply IH.
Qed.

Lemma mapM_fixed {A : Type} (f : A -> result A) :
  (forall a a', f a = Ok a' -> a' = a) ->
  forall l l', mapM f l = Ok l' -> l' = l.
Proof.
  intros Hf. induction l as [|a l IH]; simpl; intros l' H.
  - now injection H.
  - apply bind_Ok in H as (b & Hb & H). apply bind_Ok in H as (bs & Hbs & H).
    injection H as <-. now rewrite (Hf _ _ Hb), (IH _ Hbs).
Qed.

Lemma main_content_unknown_strategy (strategy : string) :
  STRATEGY config = Some strategy ->
  ~ recognized (Some strategy) ->
  forall limit soup soup',
    main_content config forced limit soup = Ok soup' -> soup' = soup.
Proof.
  intros Hs Hunknown.
  assert (Hthreshold : forall density,
             threshold config strategy density = Some None).
  { intros density. unfold threshold.
    destruct (String.eqb strategy "AVG") eqn:E1.
    { apply String.eqb_eq in E1. subst. exfalso. apply Hunknown. right; now left. }
    destruct (String.eqb strategy "CUSTOM") eqn:E2; [|reflexivity].
    apply String.eqb_eq in E2. subst. exfalso. apply Hunknown. right; now right. }
  assert (Hvisit : forall call,
             (forall ks ks', call ks = Ok ks' -> ks' = ks) ->
             forall n n', visit config forced call strategy n = Ok n' -> n' = n).
  { intros call Hcall n n'. unfold visit. rewrite Hthreshold.
    intros H. apply bind_Ok in H as (marks & Hm & H).
    apply bind_Ok in H as (state & Hst & H). injection H as <-.
    apply prune_level_unbound in Hm. subst marks.
    unfold keys, _calc_density in Hst. rewrite !map_map, map_id in Hst.
    simpl in Hst. rewrite apply_marks_none in Hst.
    apply (repeat_call_fixed _ Hcall) in Hst. subst state.
    destruct n as [t|name attrs cs]; [reflexivity|].
    unfold set_children, _calc_density. rewrite map_map. simpl.
    unfold find_all_children. simpl. now rewrite rebuild_id. }
  assert (Hrec : forall limit ks ks',
             main_content_rec config forced limit ks = Ok ks' -> ks' = ks).
  { induction limit as [|limit IH]; intros ks ks'; simpl; rewrite Hs;
      apply mapM_fixed, Hvisit; [discriminate | exact IH]. }
  intros limit soup soup'. unfold main_content.
  unfold keys, _calc_density. rewrite map_map, map_id.
  intros H. apply bind_Ok in H as (state1 & H1 & H).
  apply bind_Ok in H as (state2 & H2 & H). injection H as <-.
  apply Hrec in H2. subst state2.
  destruct limit as [|l]; [discriminate|]. apply Hrec in H1. subst state1.
  destruct soup as [t|name attrs cs]; [reflexivity|].
  unfold find_all_children. simpl. now rewrite rebuild_id.
Qed.

End exception_facts.

(** ** A larger budget of self-calls does not change the result *)




Section budget_facts.
Variable config : Config.
Variable forced : bool.





End budget_facts.

(** ** Counting primary headings *)




(** ** The claims about [main_content] *)











(** C9, as stated, fails: no configuration error is ever raised.  With
    [STRATEGY = None] the call returns the document; with the unknown
    strategy "MEDIAN" it returns [sample_plain] untouched, and on
    [sample_menu] it fails only inside the inner loop, on reading the
    threshold. *)
Lemma unknown_strategy_not_rejected :
  ~ recognized (STRATEGY unknown_strategy_config) /\
  main_content no_strategy_config true 5 sample_menu = Ok sample_menu /\
  main_content unknown_strategy_config true 5 sample_plain = Ok sample_plain /\
  main_content unknown_strategy_config true 5 sample_menu = Raise UnboundLocalError.
Proof.
  repeat split; try (vm_compute; reflexivity).
  intros [H|[H|H]]; discriminate.
Qed.

(** C9 (amended): the strategy is not validated before processing.  When
    it is [None] the guard of line 135 skips the pruning: [main_content]
    raises nothing and returns the tree as it received it. *)
Theorem no_strategy_no_pruning
        (config : Config) (forced : bool) (limit : nat) (soup : node) :
  STRATEGY config = None ->
  main_content config forced (S limit) soup = Ok soup.
Proof.
  apply main_content_no_strategy.
Qed.

Lemma no_strategy_no_pruning_witness :
  STRATEGY no_strategy_config = None /\
  main_content no_strategy_config true 5 sample_menu = Ok sample_menu.
Proof.
  split; [reflexivity|].
  apply (no_strategy_no_pruning no_strategy_config true 4 sample_menu).
  reflexivity.
Defined.

End ParserFacts.

(** * Properties of the formatter *)

Module FormatterFacts.
Import Parser Formatter.

Local Open Scope char_scope.

(** ** [startswith], [replace] and [contains] *)

Lemma startswith_app (p s : str) : startswith p (p ++ s) = true.
Proof.
  induction p as [|c p IH]; simpl; [reflexivity|].
  now rewrite Ascii.eqb_refl, IH.
Qed.

Lemma startswith_true (p s : str) :
  startswith p s = true -> s = p ++ skipn (List.length p) s.
Proof.
  revert s. induction p as [|c p IH]; intros [|x s]; simpl; try discriminate;
    try reflexivity.
  intros H. apply andb_prop in H as [Hc Hp].
  apply Ascii.eqb_eq in Hc as ->. f_equal. now apply IH.
Qed.

Lemma replace_from_skip (old new a : str) :
  forall b, replace_from old new (List.length a) (a ++ b) = replace_from old new 0 b.
Proof.
  induction a as [|c a IH]; intros b; simpl; [|apply IH].
  destruct b; reflexivity.
Qed.

(** An occurrence of [old] at the head is replaced and the scan goes on
    behind it. *)
Lemma replace_from_match (old new b : str) :
  old <> [] ->
  replace_from old new 0 (old ++ b) = new ++ replace_from old new 0 b.
Proof.
  destruct old as [|c old]; [congruence|]. intros _.
  change ((c :: old) ++ b) with (c :: (old ++ b)).
  cbn [replace_from]. change (c :: old ++ b) with ((c :: old) ++ b).
  rewrite startswith_app. f_equal.
  replace (List.length (c :: old) - 1)%nat with (List.length old) by (simpl; lia).
  apply replace_from_skip.
Qed.


(** Characters in front of the first occurrence are copied. *)
Lemma replace_from_copy (old new : str) :
  forall a rest,
    (forall i, (i < List.length a)%nat ->
               startswith old (skipn i (a ++ rest)) = false) ->
    replace_from old new 0 (a ++ rest) = a ++ replace_from old new 0 rest.
Proof.
  induction a as [|c a IH]; intros rest H; [reflexivity|].
  simpl app. cbn [replace_from].
  pose proof (H O (Nat.lt_0_succ _)) as H0. simpl in H0. rewrite H0.
  f_equal. apply IH. intros i Hi.
  apply (H (S i)). simpl. lia.
Qed.

Lemma replace_from_absent (old new : str) :
  forall s, contains old s = false -> replace_from old new 0 s = s.
Proof.
  induction s as [|c s IH]; intros H; [reflexivity|].
  cbn [replace_from]. simpl in H. apply orb_false_elim in H as [H0 H].
  simpl. rewrite H0. f_equal. now apply IH.
Qed.

Lemma replace_nonempty (old new s : str) :
  old <> [] -> replace old new s = replace_from old new 0 s.
Proof. destruct old; [congruence | reflexivity]. Qed.

(** ** [strip] *)

Lemma lstrip_blank (s : str) : forallb isspace s = true -> lstrip s = [].
Proof.
  induction s as [|c s IH]; simpl; [reflexivity|].
  intros H. apply andb_prop in H as [-> H]. now apply IH.
Qed.

Lemma strip_blank (s : str) : forallb isspace s = true -> strip s = [].
Proof.
  intros H. unfold strip, rstrip. now rewrite (lstrip_blank _ H).
Qed.

Lemma str_eqb_false (a b : str) : a <> b -> str_eqb a b = false.
Proof. unfold str_eqb. now destruct (list_eq_dec ascii_dec a b). Qed.

Lemma str_eqb_refl (a : str) : str_eqb a a = true.
Proof. unfold str_eqb. now destruct (list_eq_dec ascii_dec a a). Qed.

(** ** Paragraph separation *)

(** C6, as stated, fails: [str.replace] without a count replaces every
    occurrence.  Separating the paragraph "x" in "x y x" surrounds both
    occurrences. *)
Lemma later_occurrence_also_surrounded :
  separate (lit "x y x") (lit "x")
  = [newline] ++ lit "x" ++ [newline] ++ lit " y " ++ [newline] ++ lit "x" ++ [newline].
Proof. vm_compute. reflexivity. Qed.

(** C6 (amended): for a paragraph whose trimmed text [t] is not empty, the
    separation step surrounds with line breaks every occurrence of [t] that
    the left-to-right scan meets: the text in front of the first
    occurrence is copied, the occurrence is surrounded, and the step goes
    on in the same way on the text behind it; a text without occurrence
    is left as it is. *)
Theorem separate_every_occurrence (p_text a b : str) :
  strip p_text <> [] ->
  (forall i, (i < List.length a)%nat ->
             startswith (strip p_text) (skipn i (a ++ strip p_text ++ b)) = false) ->
  separate (a ++ strip p_text ++ b) p_text
  = a ++ [newline] ++ strip p_text ++ [newline] ++ separate b p_text
  /\ (contains (strip p_text) b = false -> separate b p_text = b).
Proof.
  intros Ht Hfirst.
  assert (Hp : p_text <> []) by (intros ->; now apply Ht).
  unfold separate. rewrite (str_eqb_false _ _ Hp), !replace_nonempty by assumption.
  split.
  - rewrite replace_from_copy by assumption.
    rewrite replace_from_match by assumption.
    now rewrite <- !app_assoc.
  - apply replace_from_absent.
Qed.

Lemma separate_every_occurrence_witness :
  strip (lit " x ") <> [] /\
  (forall i, (i < List.length (lit "a "))%nat ->
             startswith (strip (lit " x "))
               (skipn i (lit "a " ++ strip (lit " x ") ++ lit " y x")) = false) /\
  separate (lit "a " ++ strip (lit " x ") ++ lit " y x") (lit " x ")
  = lit "a " ++ [newline] ++ strip (lit " x ") ++ [newline]
    ++ separate (lit " y x") (lit " x ").
Proof.
  assert (H1 : strip (lit " x ") <> []) by (vm_compute; discriminate).
  assert (H2 : forall i, (i < List.length (lit "a "))%nat ->
             startswith (strip (lit " x "))
               (skipn i (lit "a " ++ strip (lit " x ") ++ lit " y x")) = false).
  { intros [|[|i]] Hi; [reflexivity | reflexivity | simpl in Hi; lia]. }
  split; [exact H1|]. split; [exact H2|].
  exact (proj1 (separate_every_occurrence (lit " x ") (lit "a ") (lit " y x") H1 H2)).
Defined.

(** C10: a paragraph whose text is not empty but all blank passes the
    guard of line 290; its trimmed text is the empty string, and the
    replacement puts two line breaks in front of every character of the
    running text and two at its end. *)
Theorem blank_paragraph_breaks_everywhere (string p_text : str) :
  p_text <> [] ->
  forallb isspace p_text = true ->
  strip p_text = [] /\
  separate string p_text
  = [newline; newline] ++ flat_map (fun c => c :: [newline; newline]) string.
Proof.
  intros Hp Hblank. pose proof (strip_blank _ Hblank) as Hs.
  split; [exact Hs|].
  unfold separate. rewrite (str_eqb_false _ _ Hp), Hs. reflexivity.
Qed.

Lemma blank_paragraph_breaks_everywhere_witness :
  lit "  " <> [] /\
  forallb isspace (lit "  ") = true /\
  strip (lit "  ") = [] /\
  separate (lit "ab") (lit "  ")
  = [newline; newline] ++ flat_map (fun c => c :: [newline; newline]) (lit "ab").
Proof.
  split; [discriminate|]. split; [reflexivity|].
  apply (blank_paragraph_breaks_everywhere (lit "ab") (lit "  "));
    [discriminate | reflexivity].
Defined.

(** ** Lines *)









(** ** Character classes *)

Lemma isword_nonspace (c : ascii) : isword c = true -> nonspace c = true.
Proof.
  destruct c as [[] [] [] [] [] [] [] []]; vm_compute; congruence.
Qed.

Lemma isword_not_break (c : ascii) : isword c = true -> isbreak c = false.
Proof.
  destruct c as [[] [] [] [] [] [] [] []]; vm_compute; congruence.
Qed.

Lemma isspace_isbreak (c : ascii) : isspace c = true -> isbreak c = true.
Proof. unfold isbreak. now intros ->. Qed.

Lemma nonspace_newline (c : ascii) : nonspace c = true -> c <> newline.
Proof. intros H ->. discriminate. Qed.


Lemma lstrip_nonspace (s : str) : forallb nonspace s = true -> lstrip s = s.
Proof.
  destruct s as [|c s]; [reflexivity|]. simpl. intros H.
  apply andb_prop in H as [H _]. unfold nonspace in H.
  now destruct (isspace c).
Qed.

(** ** [takewhile] and [last_index] *)

Lemma takewhile_all (f : ascii -> bool) (s : str) :
  forallb f (takewhile f s) = true.
Proof.
  induction s as [|c s IH]; simpl; [reflexivity|].
  destruct (f c) eqn:Hc; simpl; [now rewrite Hc|reflexivity].
Qed.

Lemma takewhile_app (f : ascii -> bool) (a s : str) :
  forallb f a = true -> takewhile f (a ++ s) = a ++ takewhile f s.
Proof.
  induction a as [|c a IH]; simpl; [reflexivity|].
  intros H. apply andb_prop in H as [-> H]. now rewrite IH.
Qed.

Lemma takewhile_skipn (f : ascii -> bool) (s : str) :
  s = takewhile f s ++ skipn (List.length (takewhile f s)) s /\
  takewhile f (skipn (List.length (takewhile f s)) s) = [].
Proof.
  induction s as [|c s [IH1 IH2]]; simpl; [now split|].
  destruct (f c) eqn:Hc; simpl.
  - split; [now rewrite <- IH1 | exact IH2].
  - now rewrite Hc.
Qed.

Lemma takewhile_split (f : ascii -> bool) :
  forall a x b s,
    takewhile f s = a ++ x :: b ->
    exists rest, s = a ++ x :: rest /\ takewhile f rest = b.
Proof.
  induction a as [|c a IH]; intros x b [|y s]; simpl; try discriminate.
  - destruct (f y); [|discriminate]. intros [= -> <-]. eauto.
  - destruct (f y); [|discriminate]. intros [= -> H].
    destruct (IH _ _ _ H) as (rest & -> & Hrest). eauto.
Qed.

Lemma last_index_None (c : ascii) (s : str) :
  last_index c s = None <-> ~ In c s.
Proof.
  induction s as [|x s IH]; simpl; [tauto|].
  destruct (last_index c s) as [j|].
  - split; [discriminate|]. intros H. exfalso. apply H. right.
    destruct (in_dec ascii_dec c s) as [Hin|Hout]; [assumption|].
    apply IH in Hout. discriminate.
  - destruct (Ascii.eqb x c) eqn:Hx.
    + apply Ascii.eqb_eq in Hx. split; [discriminate|]. intros H. exfalso. auto.
    + apply Ascii.eqb_neq in Hx. split; [|reflexivity].
      intros _ [H|H]; [auto | now apply IH in H].
Qed.

Lemma last_index_Some (c : ascii) :
  forall s j,
    last_index c s = Some j ->
    exists a b, s = a ++ c :: b /\ List.length a = j /\ ~ In c b.
Proof.
  induction s as [|x s IH]; simpl; intros j H; [discriminate|].
  destruct (last_index c s) as [j'|] eqn:Hl.
  - injection H as <-. destruct (IH _ eq_refl) as (a & b & -> & <- & Hb).
    exists (x :: a), b. auto.
  - destruct (Ascii.eqb x c) eqn:Hx; [|discriminate]. injection H as <-.
    apply Ascii.eqb_eq in Hx as ->. exists [], s. repeat split.
    now apply last_index_None.
Qed.

Lemma last_index_app (c : ascii) (b : str) :
  ~ In c b -> forall a, last_index c (a ++ c :: b) = Some (List.length a).
Proof.
  intros Hb. induction a as [|x a IH]; simpl.
  - apply last_index_None in Hb. now rewrite Hb, Ascii.eqb_refl.
  - now rewrite IH.
Qed.

(** ** The three alternatives of the pattern *)

Lemma match_url_Some (s : str) (n : nat) :
  match_url s = Some n ->
  exists tok rest,
    s = tok ++ rest /\ List.length tok = n /\ is_url tok /\
    ~ In "]" (takewhile nonspace rest).
Proof.
  unfold match_url, strip_prefix.
  destruct (startswith (lit "[http") s) eqn:H1; [|discriminate].
  apply startswith_true in H1.
  remember (skipn (List.length (lit "[http")) s) as s1 eqn:E1. clear E1.
  assert (Hgen : forall o s2 (k : nat),
             (o = [] \/ o = lit "s") -> k = List.length o -> s1 = o ++ s2 ->
             match strip_prefix (lit "://") s2 with
             | Some s3 =>
                 match last_index "]" (takewhile nonspace s3) with
                 | Some (S j) => Some (5 + k + 3 + S j + 1)%nat
                 | _ => None
                 end
             | None => None
             end = Some n ->
             exists tok rest,
               s = tok ++ rest /\ List.length tok = n /\ is_url tok /\
               ~ In "]" (takewhile nonspace rest)).
  { intros o s2 k Ho -> Hs1. unfold strip_prefix.
    destruct (startswith (lit "://") s2) eqn:H3; [|discriminate].
    apply startswith_true in H3.
    remember (skipn (List.length (lit "://")) s2) as s3 eqn:E3. clear E3.
    destruct (last_index "]" (takewhile nonspace s3)) as [[|j]|] eqn:H4;
      try discriminate.
    intros [= <-].
    apply last_index_Some in H4 as (a & b & Hrun & Hlen & Hnot).
    pose proof (takewhile_all nonspace s3) as Hall.
    rewrite Hrun, forallb_app in Hall. apply andb_prop in Hall as [Ha _].
    apply takewhile_split in Hrun as (rest & Hs3 & Hb).
    exists (lit "[http" ++ o ++ lit "://" ++ a ++ lit "]"), rest.
    repeat split.
    - rewrite H1, Hs1, H3, Hs3. rewrite <- !app_assoc. reflexivity.
    - rewrite !length_app, Hlen. simpl. lia.
    - exists o, a. repeat split; auto. intros ->. discriminate.
    - now rewrite Hb. }
  destruct (startswith (lit "s") s1) eqn:H2.
  - apply startswith_true in H2.
    apply (Hgen (lit "s") (skipn 1 s1) 1%nat); auto.
  - apply (Hgen [] s1 0%nat); auto.
Qed.

Lemma match_url_complete (tok rest : str) :
  is_url tok -> ~ In "]" (takewhile nonspace rest) ->
  match_url (tok ++ rest) = Some (List.length tok).
Proof.
  intros (o & R & Ho & -> & HR & Hns) Hrest.
  assert (Hrun : last_index "]" (takewhile nonspace (R ++ lit "]" ++ rest))
                 = Some (List.length R)).
  { rewrite takewhile_app by assumption. simpl.
    now apply last_index_app. }
  destruct R as [|r R]; [congruence|].
  unfold match_url, strip_prefix.
  destruct Ho as [->| ->]; rewrite <- !app_assoc; simpl app.
  - simpl. simpl in Hrun. rewrite Hrun.
    rewrite !length_app. simpl. do 10 f_equal; lia.
  - simpl. simpl in Hrun. rewrite Hrun.
    rewrite !length_app. simpl. do 10 f_equal; lia.
Qed.

Lemma match_word_Some (s : str) (n : nat) :
  match_word s = Some n ->
  exists tok rest,
    s = tok ++ rest /\ List.length tok = n /\ is_word tok /\
    takewhile isword rest = [].
Proof.
  unfold match_word.
  destruct (takewhile_skipn isword s) as [Hs Hrest].
  pose proof (takewhile_all isword s) as Hall.
  destruct (takewhile isword s) as [|c w] eqn:Hw; [discriminate|].
  intros [= <-].
  exists (c :: w), (skipn (List.length (c :: w)) s).
  repeat split; auto. discriminate.
Qed.

Lemma match_word_complete (tok rest : str) :
  is_word tok -> takewhile isword rest = [] ->
  match_word (tok ++ rest) = Some (List.length tok).
Proof.
  intros [Hne Hall] Hrest. unfold match_word.
  rewrite takewhile_app, Hrest, app_nil_r by assumption.
  destruct tok; [congruence | reflexivity].
Qed.

Lemma match_break_Some (s : str) (n : nat) :
  match_break s = Some n ->
  exists c rest, s = c :: rest /\ n = 1%nat /\ isbreak c = true.
Proof.
  destruct s as [|c s]; simpl; [discriminate|].
  destruct (isbreak c) eqn:Hc; [|discriminate]. intros [= <-]. eauto.
Qed.

(** ** The scan of [findall] *)

Lemma findall_from_skip (a : str) :
  forall b, findall_from (List.length a) (a ++ b) = findall_from 0 b.
Proof.
  induction a as [|c a IH]; intros b; simpl; [|apply IH].
  destruct b; reflexivity.
Qed.

Lemma findall_match (tok rest : str) :
  tok <> [] -> match_token (tok ++ rest) = Some (List.length tok) ->
  findall (tok ++ rest) = tok :: findall rest.
Proof.
  destruct tok as [|c tok]; [congruence|]. intros _ H.
  unfold findall. change ((c :: tok) ++ rest) with (c :: (tok ++ rest)) in *.
  cbn [findall_from]. rewrite H.
  replace (List.length (c :: tok) - 1)%nat with (List.length tok)
    by (simpl; lia).
  rewrite findall_from_skip.
  change (c :: tok ++ rest) with ((c :: tok) ++ rest).
  now rewrite firstn_app, firstn_all, Nat.sub_diag, app_nil_r.
Qed.

Lemma findall_pass (c : ascii) (s : str) :
  match_token (c :: s) = None -> findall (c :: s) = findall s.
Proof.
  intros H. unfold findall. cbn [findall_from]. now rewrite H.
Qed.

(** A match is a bracketed link, a word or one separator character. *)
Lemma match_token_Some (s : str) (n : nat) :
  match_token s = Some n ->
  exists tok rest,
    s = tok ++ rest /\ List.length tok = n /\ tok <> [] /\
    ((is_url tok /\ ~ In "]" (takewhile nonspace rest))
     \/ (is_word tok /\ takewhile isword rest = [])
     \/ is_break tok).
Proof.
  unfold match_token.
  destruct (match_url s) as [m|] eqn:Hu.
  - intros [= <-]. apply match_url_Some in Hu as (tok & rest & -> & Hl & Hk & Hr).
    exists tok, rest. repeat split; auto.
    destruct Hk as (o & R & _ & -> & _). discriminate.
  - destruct (match_word s) as [m|] eqn:Hw.
    + intros [= <-].
      apply match_word_Some in Hw as (tok & rest & -> & Hl & Hk & Hr).
      exists tok, rest. repeat split; auto. apply Hk.
    + intros H. apply match_break_Some in H as (c & rest & -> & -> & Hc).
      exists [c], rest. repeat split; [discriminate|].
      right; right. exists c. auto.
Qed.

(** Induction along the scan: no match at the first character, or a match
    [tok] followed by the scan of the rest. *)
Lemma findall_scan_ind (P : str -> list str -> Prop) :
  P [] [] ->
  (forall c s,
      match_token (c :: s) = None -> P s (findall s) -> P (c :: s) (findall s)) ->
  (forall tok rest,
      tok <> [] ->
      (is_url tok /\ ~ In "]" (takewhile nonspace rest))
      \/ (is_word tok /\ takewhile isword rest = [])
      \/ is_break tok ->
      P rest (findall rest) -> P (tok ++ rest) (tok :: findall rest)) ->
  forall s, P s (findall s).
Proof.
  intros Hnil Hpass Hmatch s.
  remember (List.length s) as n eqn:Hn. revert s Hn.
  induction n as [n IH] using lt_wf_ind. intros [|c s] Hn; [exact Hnil|].
  destruct (match_token (c :: s)) as [m|] eqn:Hm.
  - destruct (match_token_Some _ _ Hm) as (tok & rest & Hs & Hl & Hne & Hk).
    rewrite Hs in *. subst m. rewrite (findall_match _ _ Hne Hm).
    apply Hmatch; auto. apply (IH (List.length rest)); [|reflexivity].
    subst n. rewrite length_app. destruct tok; [congruence | simpl; lia].
  - rewrite (findall_pass _ _ Hm). apply Hpass; [assumption|].
    apply (IH (List.length s)); [subst n; simpl; lia | reflexivity].
Qed.

Lemma findall_kinds (s : str) :
  Forall (fun tok => is_url tok \/ is_word tok \/ is_break tok) (findall s).
Proof.
  apply (findall_scan_ind
           (fun _ toks =>
              Forall (fun tok => is_url tok \/ is_word tok \/ is_break tok) toks)).
  - constructor.
  - auto.
  - intros tok rest _ Hk IH. constructor; [tauto | exact IH].
Qed.

Lemma is_url_nonspace (tok : str) : is_url tok -> forallb nonspace tok = true.
Proof.
  intros (o & R & Ho & -> & _ & HR).
  rewrite !forallb_app, HR. destruct Ho as [->| ->]; reflexivity.
Qed.

Lemma is_word_nonspace (tok : str) : is_word tok -> forallb nonspace tok = true.
Proof.
  intros [_ H]. apply forallb_forall. intros c Hc.
  rewrite forallb_forall in H. now apply isword_nonspace, H.
Qed.

Lemma findall_shape (s : str) : Forall token_shape (findall s).
Proof.
  eapply Forall_impl; [|apply findall_kinds]. simpl.
  intros tok [H|[H|(c & -> & Hc)]].
  - split; [|left; now apply is_url_nonspace].
    destruct H as (o & R & _ & -> & _). discriminate.
  - split; [apply H | left; now apply is_word_nonspace].
  - split; [discriminate|]. unfold nonspace. simpl.
    destruct (isspace c) eqn:Hs; [right; eauto | now left].
Qed.

(** What line 308 makes of a token. *)
Lemma lstrip_token (tok : str) :
  token_shape tok -> lstrip tok = tok \/ lstrip tok = [].
Proof.
  intros [_ [H|(c & -> & Hc)]].
  - left. now apply lstrip_nonspace.
  - right. simpl. now rewrite Hc.
Qed.


(** ** The wrapping loop *)

Section wrapping.
Variable max_length : Z.
Variable sp2 : list str.
Hypothesis max_length_positive : 1 <= max_length.


Lemma len_app (a b : str) : len (a ++ b) = len a + len b.
Proof. unfold len. rewrite length_app. lia. Qed.




End wrapping.




(** ** Wrapping again *)

(** C5, as stated, fails.  Wrapping "aaa bbb" to 5 columns gives two
    lines, and wrapping that result again adds a line break at its end;
    wrapping "  a" gives " a", and wrapping " a" gives "a".  No token is
    longer than [max_length] in either case. *)
Lemma rewrap_changes_wrapped_text :
  wrap (lit "aaa bbb") 5 = lit "aaa " ++ [newline] ++ lit "bbb" /\
  Forall (fun tok => len tok <= 5) (findall (wrap (lit "aaa bbb") 5)) /\
  wrap (wrap (lit "aaa bbb") 5) 5
  = lit "aaa " ++ [newline] ++ lit "bbb" ++ [newline] /\
  wrap (lit "  a") 80 = lit " a" /\
  Forall (fun tok => len tok <= 80) (findall (wrap (lit "  a") 80)) /\
  wrap (wrap (lit "  a") 80) 80 = lit "a".
Proof.
  repeat split; try (vm_compute; reflexivity);
    repeat constructor; vm_compute; discriminate.
Qed.

(** *** Scanning a text made of tokens *)

Lemma match_url_head (c : ascii) (s : str) :
  c <> "[" -> match_url (c :: s) = None.
Proof.
  intros Hc. unfold match_url, strip_prefix.
  change (startswith (lit "[http") (c :: s))
    with (Ascii.eqb "[" c && startswith (lit "http") s).
  destruct (Ascii.eqb "[" c) eqn:E; [|reflexivity].
  apply Ascii.eqb_eq in E. congruence.
Qed.

Lemma isword_not_bracket (c : ascii) : isword c = true -> c <> "[".
Proof. intros H ->. discriminate. Qed.

Lemma isbreak_not_bracket (c : ascii) : isbreak c = true -> c <> "[".
Proof. intros H ->. discriminate. Qed.

Lemma isbreak_not_word (c : ascii) : isbreak c = true -> isword c = false.
Proof.
  intros H. destruct (isword c) eqn:Hw; [|reflexivity].
  apply isword_not_break in Hw. congruence.
Qed.

Lemma findall_word (u rest : str) :
  u <> [] -> forallb isword u = true -> takewhile isword rest = [] ->
  findall (u ++ rest) = u :: findall rest.
Proof.
  intros Hne Hu Hrest. apply findall_match; [assumption|].
  unfold match_token. destruct u as [|c u]; [congruence|].
  simpl app. rewrite match_url_head.
  - change (c :: u ++ rest) with ((c :: u) ++ rest).
    rewrite match_word_complete; [reflexivity | now split | assumption].
  - simpl in Hu. apply andb_prop in Hu as [Hc _]. now apply isword_not_bracket.
Qed.

Lemma findall_break (c : ascii) (rest : str) :
  isbreak c = true -> findall (c :: rest) = [c] :: findall rest.
Proof.
  intros Hc. apply (findall_match [c] rest); [discriminate|].
  unfold match_token. simpl app.
  rewrite match_url_head by now apply isbreak_not_bracket.
  unfold match_word, match_break. simpl.
  now rewrite (isbreak_not_word _ Hc), Hc.
Qed.

Lemma findall_url (tok rest : str) :
  is_url tok -> ~ In "]" (takewhile nonspace rest) ->
  findall (tok ++ rest) = tok :: findall rest.
Proof.
  intros Hk Hrest. apply findall_match.
  - destruct Hk as (o & R & _ & -> & _). discriminate.
  - unfold match_token. now rewrite match_url_complete.
Qed.

Lemma findall_after_word (u rest : str) :
  forallb isword u = true -> takewhile isword rest = [] ->
  List.concat (findall (u ++ rest)) = u ++ List.concat (findall rest).
Proof.
  intros Hu Hrest. destruct u as [|c u]; [reflexivity|].
  rewrite findall_word; auto. discriminate.
Qed.

(** Scanning the concatenation of a well cut list of tokens loses no
    character, even behind a run [u] of word characters. *)
Lemma well_cut_stable :
  forall toks, well_cut toks ->
  forall u, forallb isword u = true ->
    List.concat (findall (u ++ List.concat toks)) = u ++ List.concat toks.
Proof.
  induction toks as [|tok toks IH]; intros Hcut u Hu.
  - cbn [List.concat]. rewrite findall_after_word by auto. reflexivity.
  - destruct Hcut as [Hk Hcut]. specialize (IH Hcut). cbn [List.concat].
    pose proof (IH [] eq_refl) as IH0. cbn [app] in IH0.
    destruct Hk as [[Hurl Hrun]|[Hword|(c & -> & Hc)]].
    + rewrite findall_after_word; auto.
      * rewrite findall_url by assumption. cbn [List.concat].
        now rewrite IH0.
      * destruct Hurl as (o & R & _ & -> & _). reflexivity.
    + rewrite app_assoc. apply IH.
      rewrite forallb_app, Hu. apply Hword.
    + simpl app. rewrite findall_after_word; auto.
      * rewrite findall_break by assumption. cbn [List.concat].
        now rewrite IH0.
      * simpl. now rewrite (isbreak_not_word _ Hc).
Qed.

Lemma match_token_None_nonspace (c : ascii) (s : str) :
  match_token (c :: s) = None -> nonspace c = true.
Proof.
  unfold match_token.
  destruct (match_url (c :: s)); [discriminate|].
  destruct (match_word (c :: s)); [discriminate|].
  simpl. destruct (isbreak c) eqn:Hc; [discriminate|]. intros _.
  unfold nonspace. destruct (isspace c) eqn:Hs; [|reflexivity].
  apply isspace_isbreak in Hs. congruence.
Qed.

(** The tokens of any text are well cut; on the way, the first run of
    non-blank characters of their concatenation only holds characters of
    the first run of the text. *)
Lemma findall_well_cut_run (s : str) :
  well_cut (findall s) /\
  incl (takewhile nonspace (List.concat (findall s))) (takewhile nonspace s).
Proof.
  apply (findall_scan_ind
           (fun s toks =>
              well_cut toks /\
              incl (takewhile nonspace (List.concat toks)) (takewhile nonspace s))).
  - split; [exact I | apply incl_refl].
  - intros c s' Hnone [Hcut Hrun]. split; [assumption|].
    simpl. rewrite (match_token_None_nonspace _ _ Hnone).
    intros x Hx. right. now apply Hrun.
  - intros tok rest Hne Hk [Hcut Hrun]. split.
    + split; [|assumption].
      destruct Hk as [[Hurl Hr]|[[Hw _]|Hb]]; auto.
      left. split; [assumption|]. intros Hin. apply Hr. now apply Hrun.
    + cbn [List.concat].
      assert (Hcases : forallb nonspace tok = true
                       \/ exists c, tok = [c] /\ isspace c = true).
      { destruct Hk as [[Hurl _]|[[Hw _]|(c & -> & Hc)]].
        - left. now apply is_url_nonspace.
        - left. now apply is_word_nonspace.
        - unfold nonspace. simpl.
          destruct (isspace c) eqn:Hs; [right; eauto | now left]. }
      destruct Hcases as [Hns|(c & -> & Hc)].
      * rewrite !takewhile_app by assumption.
        intros x Hx. apply in_or_app. apply in_app_or in Hx as [Hx|Hx]; auto.
      * simpl. unfold nonspace. rewrite Hc. simpl. intros x [].
Qed.

Lemma findall_well_cut (s : str) : well_cut (findall s).
Proof. apply findall_well_cut_run. Qed.

(** *** The loop on a text that stays on one line *)

Lemma wrap_step_keeps_newline (max_length : Z) (state : Z * str) (word : str) :
  In newline (snd state) -> In newline (snd (wrap_step max_length state word)).
Proof.
  destruct state as [length new_string]. unfold wrap_step. simpl snd. intros H.
  destruct (str_eqb _ [newline]);
    destruct (_ <? _)%Z; try destruct (_ =? max_length)%Z; simpl snd;
    repeat (apply in_or_app; left); assumption.
Qed.

Lemma wrap_fold_keeps_newline (max_length : Z) :
  forall words state,
    In newline (snd state) ->
    In newline (snd (fold_left (wrap_step max_length) words state)).
Proof.
  induction words as [|word words IH]; intros state H; [exact H|].
  simpl. apply IH. now apply wrap_step_keeps_newline.
Qed.

(** A step that adds no line break is the last branch of the loop. *)
Lemma wrap_step_plain (max_length length : Z) (new_string word : str) :
  ~ In newline (snd (wrap_step max_length (length, new_string) word)) ->
  wrap_step max_length (length, new_string) word
  = (length + len word,
     new_string ++ (if (length =? 1)%Z then lstrip word else word))
  /\ length + len word < max_length.
Proof.
  unfold wrap_step.
  set (w := if (length =? 1)%Z then lstrip word else word).
  destruct (str_eqb w [newline]).
  - intros H. exfalso. apply H.
    destruct (_ <? _)%Z; try destruct (_ =? max_length)%Z; simpl snd;
      rewrite <- ?app_assoc; apply in_or_app; right; now left.
  - destruct (max_length <? length + len word)%Z eqn:H1.
    + intros H. exfalso. apply H. simpl snd.
      apply in_or_app; right; now left.
    + destruct (length + len word =? max_length)%Z eqn:H2.
      * intros H. exfalso. apply H. simpl snd.
        apply in_or_app; right. apply in_or_app; right; now left.
      * intros _. apply Z.ltb_ge in H1. apply Z.eqb_neq in H2.
        split; [reflexivity | lia].
Qed.

Lemma len_nonneg (s : str) : 0 <= len s.
Proof. unfold len. lia. Qed.

Lemma wrap_fold_plain (max_length : Z) :
  forall words length new_string,
    1 < length ->
    ~ In newline
        (snd (fold_left (wrap_step max_length) words (length, new_string))) ->
    snd (fold_left (wrap_step max_length) words (length, new_string))
    = new_string ++ List.concat words
    /\ (words = [] \/ length + len (List.concat words) < max_length).
Proof.
  induction words as [|word words IH]; intros length new_string Hl Hno.
  - simpl. rewrite app_nil_r. auto.
  - cbn [fold_left] in *.
    assert (Hstep : ~ In newline
                      (snd (wrap_step max_length (length, new_string) word))).
    { intros H. apply Hno. now apply wrap_fold_keeps_newline. }
    apply wrap_step_plain in Hstep as [Hstep Hlt].
    rewrite Hstep in *.
    replace (length =? 1)%Z with false in * by (symmetry; apply Z.eqb_neq; lia).
    pose proof (len_nonneg word).
    assert (Hl' : 1 < length + len word) by lia.
    destruct (IH _ _ Hl' Hno) as [Hres Hbound].
    rewrite Hres. cbn [List.concat]. rewrite <- app_assoc. split; [reflexivity|].
    right. rewrite len_app.
    destruct Hbound as [->|Hb]; [|lia].
    cbn [List.concat]. unfold len at 2. simpl. lia.
Qed.

Lemma token_shape_len (tok : str) : token_shape tok -> 1 <= len tok.
Proof.
  intros [Hne _]. unfold len. destruct tok; [congruence | simpl List.length; lia].
Qed.

Lemma wrap_loop_plain (max_length : Z) (toks : list str) :
  Forall token_shape toks ->
  ~ In newline (snd (wrap_loop max_length toks)) ->
  toks = [] \/
  exists tok rest,
    toks = tok :: rest /\
    snd (wrap_loop max_length toks) = lstrip tok ++ List.concat rest /\
    1 + len (List.concat toks) < max_length.
Proof.
  intros Hshape Hno. destruct toks as [|tok rest]; [now left|]. right.
  exists tok, rest. split; [reflexivity|].
  unfold wrap_loop in *. cbn [fold_left] in *.
  assert (Hstep : ~ In newline (snd (wrap_step max_length (1, []) tok))).
  { intros H. apply Hno. now apply wrap_fold_keeps_newline. }
  apply wrap_step_plain in Hstep as [Hstep Hlt].
  rewrite Hstep in *. simpl Z.eqb in *. cbn iota in *.
  pose proof (token_shape_len _ (Forall_inv Hshape)).
  assert (Hl' : 1 < 1 + len tok) by lia.
  destruct (wrap_fold_plain max_length rest (1 + len tok) ([] ++ lstrip tok)
              Hl' Hno) as [Hres Hbound].
  rewrite Hres. split; [reflexivity|].
  cbn [List.concat]. rewrite len_app.
  destruct Hbound as [->|Hb]; [|lia].
  change (len (List.concat [])) with 0. lia.
Qed.

Lemma str_eqb_newline (w : str) : ~ In newline w -> str_eqb w [newline] = false.
Proof.
  intros H. apply str_eqb_false. intros ->. apply H. now left.
Qed.

Lemma wrap_fold_fill (max_length : Z) :
  forall words length new_string,
    1 < length ->
    Forall (fun w => ~ In newline w) words ->
    length + len (List.concat words) < max_length ->
    fold_left (wrap_step max_length) words (length, new_string)
    = (length + len (List.concat words), new_string ++ List.concat words).
Proof.
  induction words as [|word words IH]; intros length new_string Hl Hno Hlt.
  - simpl. unfold len. simpl. now rewrite Z.add_0_r, app_nil_r.
  - cbn [List.concat] in *. rewrite len_app in Hlt.
    pose proof (len_nonneg word). pose proof (len_nonneg (List.concat words)).
    cbn [fold_left]. unfold wrap_step at 2.
    replace (length =? 1)%Z with false by (symmetry; apply Z.eqb_neq; lia).
    rewrite (str_eqb_newline _ (Forall_inv Hno)).
    replace (max_length <? length + len word)%Z with false
      by (symmetry; apply Z.ltb_ge; lia).
    replace (length + len word =? max_length)%Z with false
      by (symmetry; apply Z.eqb_neq; lia).
    rewrite IH; [|lia|now apply Forall_inv_tail in Hno|lia].
    now rewrite len_app, <- app_assoc, Z.add_assoc.
Qed.

Lemma lstrip_length (s : str) : (List.length (lstrip s) <= List.length s)%nat.
Proof.
  induction s as [|c s IH]; simpl; [lia|].
  destruct (isspace c); simpl; lia.
Qed.

Lemma lstrip_first_token (tok rest : str) :
  token_shape tok -> lstrip (tok ++ rest) = tok ++ rest -> lstrip tok = tok.
Proof.
  intros [_ [H|(c & -> & Hc)]] Heq; [now apply lstrip_nonspace|].
  exfalso. simpl in Heq. rewrite Hc in Heq.
  pose proof (lstrip_length rest) as Hl. rewrite Heq in Hl. simpl in Hl. lia.
Qed.

Lemma concat_no_newline (toks : list str) :
  ~ In newline (List.concat toks) -> Forall (fun w => ~ In newline w) toks.
Proof.
  induction toks as [|tok toks IH]; intros H; constructor.
  - intros Hin. apply H. simpl. apply in_or_app. now left.
  - apply IH. intros Hin. apply H. simpl. apply in_or_app. now right.
Qed.

(** Tokens that fit together on one line are copied one after the
    other. *)
Lemma wrap_loop_fill (max_length : Z) (toks : list str) :
  Forall token_shape toks ->
  ~ In newline (List.concat toks) ->
  lstrip (List.concat toks) = List.concat toks ->
  1 + len (List.concat toks) < max_length ->
  wrap_loop max_length toks = (1 + len (List.concat toks), List.concat toks).
Proof.
  intros Hshape Hno Hstrip Hlt. destruct toks as [|tok rest]; [reflexivity|].
  apply concat_no_newline in Hno.
  cbn [List.concat] in *. rewrite len_app in *.
  pose proof (token_shape_len _ (Forall_inv Hshape)).
  pose proof (len_nonneg (List.concat rest)).
  unfold wrap_loop. cbn [fold_left]. unfold wrap_step at 2.
  simpl Z.eqb. cbn iota.
  rewrite (lstrip_first_token _ _ (Forall_inv Hshape) Hstrip).
  rewrite (str_eqb_newline _ (Forall_inv Hno)).
  replace (max_length <? 1 + len tok)%Z with false
    by (symmetry; apply Z.ltb_ge; lia).
  replace (1 + len tok =? max_length)%Z with false
    by (symmetry; apply Z.eqb_neq; lia).
  rewrite wrap_fold_fill; [|lia|now apply Forall_inv_tail in Hno|lia].
  now rewrite Z.add_assoc.
Qed.

(** *** The final [replace] on a text without line break *)

Lemma contains_absent_head (c : ascii) (p s : str) :
  ~ In c s -> contains (c :: p) s = false.
Proof.
  induction s as [|x s IH]; intros H; [reflexivity|].
  simpl. rewrite IH by (intros Hin; apply H; now right).
  destruct (Ascii.eqb c x) eqn:E; [|reflexivity].
  apply Ascii.eqb_eq in E. subst x. exfalso. apply H. now left.
Qed.

Lemma replace_newlines_id (s : str) :
  ~ In newline s -> replace [newline; newline; newline] [newline] s = s.
Proof.
  intros H. rewrite replace_nonempty by discriminate.
  apply replace_from_absent. now apply contains_absent_head.
Qed.

Lemma replace_newlines_keeps :
  forall s,
    In newline s ->
    In newline (replace [newline; newline; newline] [newline] s).
Proof.
  intros s. rewrite replace_nonempty by discriminate.
  remember (List.length s) as n eqn:Hn. revert s Hn.
  induction n as [n IH] using lt_wf_ind. intros [|c s] Hn Hin; [destruct Hin|].
  destruct (startswith [newline; newline; newline] (c :: s)) eqn:Hm.
  - apply startswith_true in Hm. rewrite Hm.
    rewrite replace_from_match by discriminate. now left.
  - cbn [replace_from]. rewrite Hm.
    destruct Hin as [->|Hin]; [now left|]. right.
    apply (IH (List.length s)); [subst n; simpl; lia | reflexivity | assumption].
Qed.

(** C5 (amended): wrapping is idempotent on its own output when that
    output is a single line that does not start with a blank: if the
    wrapped text holds no line break and [lstrip] leaves it unchanged,
    wrapping it again returns the same string. *)
Theorem rewrap_single_line (text_with_urls : str) (max_length : Z) :
  ~ In newline (wrap text_with_urls max_length) ->
  lstrip (wrap text_with_urls max_length) = wrap text_with_urls max_length ->
  wrap (wrap text_with_urls max_length) max_length
  = wrap text_with_urls max_length.
Proof.
  intros Hno Hstrip.
  assert (Hloop : ~ In newline
                    (snd (wrap_loop max_length (findall text_with_urls)))).
  { intros H. apply Hno. unfold wrap. now apply replace_newlines_keeps. }
  assert (Hout : wrap text_with_urls max_length
                 = snd (wrap_loop max_length (findall text_with_urls))).
  { unfold wrap. now apply replace_newlines_id. }
  assert (Hcut : exists toks,
             well_cut toks /\
             wrap text_with_urls max_length = List.concat toks /\
             (toks = [] \/ 1 + len (List.concat toks) < max_length)).
  { pose proof (findall_well_cut text_with_urls) as Hwc.
    pose proof (findall_shape text_with_urls) as Hshape.
    destruct (wrap_loop_plain _ _ Hshape Hloop)
      as [Hnil|(tok & rest & Htoks & Hres & Hlt)].
    - exists []. rewrite Hout, Hnil. repeat split. now left.
    - rewrite Htoks in Hwc, Hshape, Hlt. rewrite Hout, Hres.
      destruct (lstrip_token _ (Forall_inv Hshape)) as [Hsame|Hgone].
      + exists (tok :: rest). rewrite Hsame. repeat split; try apply Hwc.
        now right.
      + exists rest. rewrite Hgone. repeat split; try apply Hwc.
        right. cbn [List.concat] in Hlt. rewrite len_app in Hlt.
        pose proof (len_nonneg tok). lia. }
  destruct Hcut as (toks & Hwc & Hconcat & Hlt).
  pose proof (well_cut_stable toks Hwc [] eq_refl) as Hstable.
  cbn [app] in Hstable. rewrite <- Hconcat in Hstable.
  unfold wrap at 1.
  assert (Hfill : wrap_loop max_length (findall (wrap text_with_urls max_length))
                  = (1 + len (wrap text_with_urls max_length),
                     wrap text_with_urls max_length)).
  { destruct Hlt as [->|Hlt].
    - cbn [List.concat] in Hconcat. rewrite Hconcat. reflexivity.
    - rewrite <- Hstable at 2 3. apply wrap_loop_fill.
      + apply findall_shape.
      + now rewrite Hstable.
      + now rewrite Hstable.
      + rewrite Hstable, Hconcat. exact Hlt. }
  rewrite Hfill. simpl snd. now apply replace_newlines_id.
Qed.

Lemma rewrap_single_line_witness :
  ~ In newline (wrap (lit "Hello, world.") 80) /\
  lstrip (wrap (lit "Hello, world.") 80) = wrap (lit "Hello, world.") 80 /\
  wrap (wrap (lit "Hello, world.") 80) 80 = wrap (lit "Hello, world.") 80.
Proof.
  assert (H1 : ~ In newline (wrap (lit "Hello, world.") 80))
    by (vm_compute; intuition discriminate).
  assert (H2 : lstrip (wrap (lit "Hello, world.") 80)
               = wrap (lit "Hello, world.") 80)
    by (vm_compute; reflexivity).
  split; [exact H1|]. split; [exact H2|].
  exact (rewrap_single_line (lit "Hello, world.") 80 H1 H2).
Defined.

(** ** Link markers *)




(** C8: an anchor without [href] makes [url['href']] raise [KeyError],
    and the exception leaves [_get_urls] and [prepare_text]; an anchor
    whose [href] is the empty string is annotated with the base domain. *)
Theorem anchor_without_href_raises :
  getitem (attrs anchor_without_href) "href" = Raise KeyError /\
  _get_urls [anchor_without_href] base_url = Raise KeyError /\
  prepare_text base_url page_with_named_anchor 80 = Raise KeyError /\
  _get_urls [anchor_empty_href] base_url
  = Ok [(lit "[https://example.com]", lit "Home")].
Proof.
  repeat split; vm_compute; reflexivity.
Qed.

(** The same on any list of anchors: the first anchor without [href]
    aborts [_get_urls]. *)
Lemma _get_urls_KeyError (domain d : str) (before after : list node) (url : node) :
  _domain_name domain = Ok d ->
  Forall (fun a => exists href, getitem (attrs a) "href" = Ok href) before ->
  getitem (attrs url) "href" = Raise KeyError ->
  _get_urls (before ++ url :: after) domain = Raise KeyError.
Proof.
  intros Hd Hbefore Hurl. unfold _get_urls. rewrite Hd. cbn [bind].
  generalize (@nil (str * str)).
  induction Hbefore as [|a before [href Ha] _ IH]; intros r_urls; simpl.
  - now rewrite Hurl.
  - rewrite Ha. simpl. apply IH.
Qed.

End FormatterFacts.


(** * Further properties of the pruning *)

Module ParserExtras.
Import Parser ParserFacts.

(** ** Sample documents *)

(** [<div><p>a</p><span><b>x</b></span></div>] *)
Definition sample_mixed : node :=
  div [Tag "p" [] [text "a"]; Tag "span" [] [Tag "b" [] [text "x"]]].

(** A page whose body holds [sample_nested] and [sample_flat]. *)
Definition sample_site : node :=
  document [html [Tag "body" [] [sample_nested; sample_flat]]].
Definition sample_site_pruned : node :=
  document [html [Tag "body" [] [sample_nested]]].


(** [STRATEGY = "CUSTOM"] with [CUSTOM_COEFF = 0] *)
Definition custom_zero_config : Config :=
  {| STRATEGY := Some "CUSTOM"%string; CUSTOM_COEFF := 0;
     FORCED := true; MAX_LENGTH := 80 |}.

(** ** The depth score *)

Lemma fold_left_max_attained (l : list Z) :
  forall a, fold_left Z.max l a = a \/ In (fold_left Z.max l a) l.
Proof.
  induction l as [|b l IH]; simpl; intros a; [now left|].
  destruct (IH (Z.max a b)) as [H|H]; [|now right; right].
  rewrite H. destruct (Z.max_spec a b) as [[_ E]|[_ E]]; rewrite E; auto.
Qed.

(** X1: a tag with contents is strictly deeper than each of its children
    (text nodes included), and exactly one deeper than one of them. *)
Theorem _calc_depth_above_children
        (name : string) (attrs : list (string * str)) (cs : list node) :
  cs <> [] ->
  (forall c, In c cs -> _calc_depth c < _calc_depth (Tag name attrs cs)) /\
  (exists c, In c cs /\ _calc_depth (Tag name attrs cs) = _calc_depth c + 1).
Proof.
  intros Hne. split.
  - intros c Hc. pose proof (_calc_depth_child name attrs cs c Hc). lia.
  - destruct cs as [|c cs]; [congruence|]. simpl _calc_depth.
    destruct (fold_left_max_attained (map _calc_depth cs) (_calc_depth c))
      as [H|H].
    + exists c. split; [now left | now rewrite H].
    + apply in_map_iff in H as (c' & Hc' & Hin).
      exists c'. split; [now right | now rewrite Hc'].
Qed.

Lemma _calc_depth_above_children_witness :
  contents sample_mixed <> [] /\
  (forall c, In c (contents sample_mixed) ->
             _calc_depth c < _calc_depth sample_mixed) /\
  (exists c, In c (contents sample_mixed) /\
             _calc_depth sample_mixed = _calc_depth c + 1).
Proof.
  split; [discriminate|].
  apply (_calc_depth_above_children "div" []). discriminate.
Defined.

(** X2: the depth score is never negative, and it is 0 exactly for the
    nodes without contents: text nodes and empty tags. *)
Theorem _calc_depth_zero (n : node) :
  0 <= _calc_depth n /\ (_calc_depth n = 0 <-> contents n = []).
Proof.
  split; [apply _calc_depth_nonneg|].
  destruct n as [s|name attrs [|c cs]]; simpl contents.
  - split; reflexivity.
  - split; reflexivity.
  - split; [|discriminate]. intros H. exfalso.
    pose proof (_calc_depth_child name attrs (c :: cs) c (or_introl eq_refl)).
    pose proof (_calc_depth_nonneg c). lia.
Qed.

(** ** What the pruning leaves in place *)










(** ** Which sibling the threshold spares *)

Lemma sum_cons (x : Z) (l : list Z) : sum (x :: l) = x + sum l.
Proof.
  unfold sum. simpl.
  assert (H : forall l a, fold_left Z.add l a = a + fold_left Z.add l 0).
  { clear. induction l as [|y l IH]; simpl; intros a; [lia|].
    rewrite IH, (IH y). lia. }
  rewrite H. lia.
Qed.


Lemma sum_nonneg (l : list Z) : Forall (fun x => 0 <= x) l -> 0 <= sum l.
Proof.
  induction 1 as [|x l Hx _ IH]; [unfold sum; simpl; lia|].
  rewrite sum_cons. lia.
Qed.


Lemma Qlt_bool_true (x y : Q) : Qlt_bool x y = true -> (x < y)%Q.
Proof.
  unfold Qlt_bool. intros H. apply negb_true_iff in H.
  apply Qnot_le_lt. intros Hle. apply Qle_bool_iff in Hle. congruence.
Qed.







(** ** Configurations that never prune *)

Lemma unmarked_of_Forall2 {A : Type} (P : A -> Prop) (R : A -> bool -> Prop) :
  (forall x, P x -> R x true -> False) ->
  forall l marks,
    Forall P l -> Forall2 R l marks -> marks = map (fun _ => false) l.
Proof.
  intros HPR l marks HP HR. induction HR as [|x m l marks Hxm _ IH]; simpl.
  - reflexivity.
  - rewrite IH by now apply Forall_inv_tail in HP.
    destruct m; [|reflexivity]. exfalso.
    apply (HPR x); [now apply Forall_inv in HP | assumption].
Qed.

(** When the inner loop decomposes nothing at any level, a call that
    returns hands the tree back as it was. *)
Lemma main_content_unmarked (config : Config) (forced : bool) :
  (forall strategy childs avg marks,
      STRATEGY config = Some strategy ->
      threshold config strategy (_calc_density childs) = Some avg ->
      prune_level forced avg (_calc_density childs) = Ok marks ->
      marks = map (fun _ => false) (_calc_density childs)) ->
  forall limit soup soup',
    main_content config forced limit soup = Ok soup' -> soup' = soup.
Proof.
  intros Hmarks.
  assert (Hvisit : forall strategy call,
             STRATEGY config = Some strategy ->
             (forall ks ks', call ks = Ok ks' -> ks' = ks) ->
             forall n n', visit config forced call strategy n = Ok n' -> n' = n).
  { intros strategy call Hs Hcall n n'. unfold visit.
    destruct (threshold config strategy _) as [avg|] eqn:Ht;
      [|now intros [= <-]].
    intros H. apply bind_Ok in H as (marks & Hm & H).
    apply bind_Ok in H as (state & Hst & H). injection H as <-.
    apply (Hmarks _ _ _ _ Hs Ht) in Hm. subst marks.
    unfold keys, _calc_density in Hst. rewrite !map_map, map_id in Hst.
    simpl in Hst. rewrite apply_marks_none in Hst.
    apply (repeat_call_fixed _ Hcall) in Hst. subst state.
    destruct n as [t|name attrs cs]; [reflexivity|].
    unfold set_children, _calc_density. rewrite map_map. simpl.
    unfold find_all_children. simpl. now rewrite rebuild_id. }
  assert (Hrec : forall limit ks ks',
             main_content_rec config forced limit ks = Ok ks' -> ks' = ks).
  { induction limit as [|limit IH]; intros ks ks'; simpl;
      (destruct (STRATEGY config) as [strategy|] eqn:Hs; [|now intros [= <-]]);
      apply mapM_fixed, (Hvisit strategy); auto; discriminate. }
  intros limit soup soup'. unfold main_content.
  unfold keys, _calc_density. rewrite map_map, map_id.
  intros H. apply bind_Ok in H as (state1 & H1 & H).
  apply bind_Ok in H as (state2 & H2 & H). injection H as <-.
  apply Hrec in H2. subst state2.
  destruct limit as [|l]; [discriminate|]. apply Hrec in H1. subst state1.
  destruct soup as [t|name attrs cs]; [reflexivity|].
  unfold find_all_children. simpl. now rewrite rebuild_id.
Qed.

(** X7: with the strategy "CUSTOM" and a coefficient of 0 or less the
    threshold is never above a density, so nothing is removed: a call
    that returns hands the tree back unchanged. *)
Theorem custom_nonpositive_coefficient_prunes_nothing
        (config : Config) (forced : bool) (limit : nat) (soup soup' : node) :
  STRATEGY config = Some "CUSTOM"%string ->
  (CUSTOM_COEFF config <= 0)%Q ->
  main_content config forced limit soup = Ok soup' ->
  soup' = soup.
Proof.
  intros Hs Hcoef. apply main_content_unmarked.
  intros strategy childs avg marks Hs' Ht Hm.
  rewrite Hs in Hs'. injection Hs' as <-.
  unfold threshold in Ht. simpl String.eqb in Ht. cbn iota in Ht.
  injection Ht as <-. apply prune_level_marks in Hm.
  apply (unmarked_of_Forall2
           (fun nd : node * Z => snd nd = _calc_depth (fst nd))
           _) with (3 := Hm).
  - intros [n d] Hd HR. simpl in Hd. subst d.
    destruct (HR eq_refl) as (_ & _ & _ & a & [= <-] & Hlt).
    apply Qlt_bool_true in Hlt. simpl in Hlt.
    apply (Qlt_not_le _ _ Hlt).
    apply Qle_trans with 0%Q.
    + assert (Hsum : 0 <= sum (values (_calc_density childs))).
      { apply sum_nonneg. unfold values, _calc_density. rewrite map_map.
        apply Forall_forall. intros x Hx.
        apply in_map_iff in Hx as (c & <- & _). apply _calc_depth_nonneg. }
      setoid_replace 0%Q
        with (inject_Z (sum (values (_calc_density childs))) * 0)%Q by ring.
      rewrite (Qmult_comm _ (CUSTOM_COEFF config)), (Qmult_comm _ 0).
      apply Qmult_le_compat_r; [assumption|].
      replace 0%Q with (inject_Z 0) by reflexivity. now rewrite <- Zle_Qle.
    + replace 0%Q with (inject_Z 0) by reflexivity. rewrite <- Zle_Qle.
      apply _calc_depth_nonneg.
  - unfold _calc_density. apply Forall_forall.
    intros nd Hnd. apply in_map_iff in Hnd as (c & <- & _). reflexivity.
Qed.

Lemma custom_nonpositive_coefficient_prunes_nothing_witness :
  STRATEGY custom_zero_config = Some "CUSTOM"%string /\
  (CUSTOM_COEFF custom_zero_config <= 0)%Q /\
  main_content custom_zero_config true 5 sample_menu = Ok sample_menu /\
  sample_menu = sample_menu.
Proof.
  repeat (split; [solve [vm_compute; reflexivity] || solve [vm_compute; discriminate]|]).
  apply (custom_nonpositive_coefficient_prunes_nothing
           custom_zero_config true 5 sample_menu sample_menu);
    solve [vm_compute; reflexivity] || solve [vm_compute; discriminate].
Defined.

(** ** A strategy outside "AVG" and "CUSTOM" *)

(** X8: with a strategy string other than "AVG" and "CUSTOM" no node is
    ever removed: a call that returns hands the tree back unchanged. *)
Theorem unknown_strategy_prunes_nothing
        (config : Config) (forced : bool) (strategy : string)
        (limit : nat) (soup soup' : node) :
  STRATEGY config = Some strategy ->
  ~ recognized (Some strategy) ->
  main_content config forced limit soup = Ok soup' ->
  soup' = soup.
Proof.
  intros Hs Hunknown. now apply (main_content_unknown_strategy config forced strategy).
Qed.

Lemma unknown_strategy_prunes_nothing_witness :
  STRATEGY unknown_strategy_config = Some "MEDIAN"%string /\
  ~ recognized (Some "MEDIAN"%string) /\
  main_content unknown_strategy_config true 5 sample_plain = Ok sample_plain /\
  sample_plain = sample_plain.
Proof.
  assert (Hunknown : ~ recognized (Some "MEDIAN"%string))
    by (intros [H|[H|H]]; discriminate).
  split; [reflexivity|]. split; [exact Hunknown|].
  split; [vm_compute; reflexivity|].
  apply (unknown_strategy_prunes_nothing unknown_strategy_config true
           "MEDIAN" 5 sample_plain sample_plain);
    [reflexivity | exact Hunknown | vm_compute; reflexivity].
Defined.

Lemma threshold_unknown (config : Config) (strategy : string)
      (density : list (node * Z)) :
  ~ recognized (Some strategy) -> threshold config strategy density = Some None.
Proof.
  intros Hunknown. unfold threshold.
  destruct (String.eqb strategy "AVG") eqn:E1.
  { apply String.eqb_eq in E1. subst. exfalso. apply Hunknown. right; now left. }
  destruct (String.eqb strategy "CUSTOM") eqn:E2; [|reflexivity].
  apply String.eqb_eq in E2. subst. exfalso. apply Hunknown. right; now right.
Qed.

Lemma prune_level_None_raises (forced : bool) :
  forall density,
    (exists nd,
        In nd density /\ content_tag (fst nd) = false /\
        has_h1 (fst nd) = false /\ kept_by_paragraphs forced (fst nd) = false) ->
    prune_level forced None density = Raise UnboundLocalError.
Proof.
  induction density as [|[n d] rest IH]; intros (nd & Hin & Hc & Hh & Hp);
    [destruct Hin|].
  simpl.
  assert (Hrest : content_tag n = true \/ has_h1 n = true
                  \/ kept_by_paragraphs forced n = true ->
                  prune_level forced None rest = Raise UnboundLocalError).
  { intros Hex. apply IH. exists nd. repeat split; auto.
    destruct Hin as [<-|Hin]; [|assumption]. simpl in *.
    destruct Hex as [H|[H|H]]; congruence. }
  destruct (content_tag n); [rewrite Hrest by auto; reflexivity|].
  destruct (has_h1 n); [rewrite Hrest by auto; reflexivity|].
  destruct (kept_by_paragraphs forced n); [rewrite Hrest by auto; reflexivity|].
  reflexivity.
Qed.

(** X9: with a strategy string other than "AVG" and "CUSTOM", a first
    top-level tag that has a child passing none of the three guards makes
    [main_content] fail with [UnboundLocalError], on reading the threshold
    that no branch assigned. *)
Theorem unknown_strategy_raises
        (config : Config) (forced : bool) (strategy : string) (limit : nat)
        (soup first c : node) (others : list node) :
  STRATEGY config = Some strategy ->
  ~ recognized (Some strategy) ->
  find_all_children soup = first :: others ->
  In c (find_all_children first) ->
  content_tag c = false -> has_h1 c = false ->
  kept_by_paragraphs forced c = false ->
  main_content config forced (S limit) soup = Raise UnboundLocalError.
Proof.
  intros Hs Hunknown Hroot Hin Hc Hh Hp.
  assert (Hvisit : forall call,
             visit config forced call strategy first = Raise UnboundLocalError).
  { intros call. unfold visit. rewrite (threshold_unknown _ _ _ Hunknown).
    rewrite prune_level_None_raises; [reflexivity|].
    exists (c, _calc_depth c). repeat split; auto.
    unfold _calc_density. apply in_map_iff. eauto. }
  unfold main_content, keys, _calc_density. rewrite map_map, map_id, Hroot.
  destruct limit as [|l]; simpl; rewrite Hs; simpl; now rewrite Hvisit.
Qed.

Lemma unknown_strategy_raises_witness :
  STRATEGY unknown_strategy_config = Some "MEDIAN"%string /\
  ~ recognized (Some "MEDIAN"%string) /\
  find_all_children sample_menu = [html [sample_nested; sample_flat]] /\
  In sample_nested (find_all_children (html [sample_nested; sample_flat])) /\
  content_tag sample_nested = false /\ has_h1 sample_nested = false /\
  kept_by_paragraphs true sample_nested = false /\
  main_content unknown_strategy_config true 5 sample_menu
  = Raise UnboundLocalError.
Proof.
  assert (Hunknown : ~ recognized (Some "MEDIAN"%string))
    by (intros [H|[H|H]]; discriminate).
  assert (Hin : In sample_nested
                   (find_all_children (html [sample_nested; sample_flat])))
    by (now left).
  repeat (split; [solve [vm_compute; reflexivity] || exact Hunknown
                  || exact Hin|]).
  apply (unknown_strategy_raises unknown_strategy_config true "MEDIAN" 4
           sample_menu (html [sample_nested; sample_flat]) sample_nested []);
    solve [vm_compute; reflexivity] || exact Hunknown || exact Hin.
Defined.






End ParserExtras.


(** * Further properties of the formatter *)

Module FormatterExtras.
Import Parser Formatter FormatterFacts.

(** ** Sample anchors *)

(** [<a href="/a">Contact</a>] *)
Definition anchor_contact : node :=
  Tag "a" [("href"%string, lit "/a")] [Parser.text "Contact"].

(** [<a href="/img"><img/></a>], an anchor without text *)
Definition anchor_image : node :=
  Tag "a" [("href"%string, lit "/img")] [Tag "img" [] []].

(** ** [_domain_name] *)

Lemma split_from_absent (sep : str) :
  sep <> [] ->
  forall s piece,
    contains sep s = false -> split_from sep 0 piece s = [piece ++ s].
Proof.
  intros Hsep. induction s as [|c s IH]; intros piece H.
  - simpl. now rewrite app_nil_r.
  - simpl in H. apply orb_false_elim in H as [H0 H].
    cbn [split_from]. rewrite H0, (IH _ H). now rewrite <- app_assoc.
Qed.

Lemma split_from_copy (c0 : ascii) (sep' : str) :
  forall a s piece,
    ~ In c0 a ->
    split_from (c0 :: sep') 0 piece (a ++ s)
    = split_from (c0 :: sep') 0 (piece ++ a) s.
Proof.
  induction a as [|x a IH]; intros s piece Ha; simpl app.
  - now rewrite app_nil_r.
  - cbn [split_from startswith].
    destruct (Ascii.eqb c0 x) eqn:E.
    + apply Ascii.eqb_eq in E. subst x. exfalso. apply Ha. now left.
    + cbn [andb]. rewrite IH by (intros H; apply Ha; now right).
      now rewrite <- app_assoc.
Qed.

Lemma split_slash_host (host tail : str) :
  ~ In "/"%char host ->
  tail = [] \/ (exists t, tail = "/"%char :: t) ->
  hd [] (split (lit "/") (host ++ tail)) = host.
Proof.
  intros Hhost Htail. unfold split.
  change (lit "/") with ["/"%char].
  rewrite split_from_copy by assumption. simpl app.
  destruct Htail as [->|(t & ->)]; reflexivity.
Qed.

Lemma split_double_slash (pre rest : str) :
  ~ In "/"%char pre -> contains (lit "//") rest = false ->
  split (lit "//") (pre ++ lit "//" ++ rest) = [pre; rest].
Proof.
  intros Hpre Hrest. unfold split. change (lit "//") with ["/"%char; "/"%char].
  rewrite split_from_copy by assumption.
  cbn [app split_from startswith List.length Nat.sub].
  rewrite !Ascii.eqb_refl. cbn [andb].
  now rewrite split_from_absent by (discriminate || assumption).
Qed.

Lemma match_scheme_prefix (scheme rest : str) :
  scheme = lit "http://" \/ scheme = lit "https://" ->
  match_scheme (scheme ++ rest) = Some scheme.
Proof. intros [->| ->]; reflexivity. Qed.

(** X11: for a URL made of "http://" or "https://", a host without slash
    and a path that is empty or starts with a slash, [_domain_name]
    returns the scheme and the host, provided no double slash occurs
    behind the scheme. *)
Theorem _domain_name_host (scheme host tail : str) :
  scheme = lit "http://" \/ scheme = lit "https://" ->
  ~ In "/"%char host ->
  tail = [] \/ (exists t, tail = "/"%char :: t) ->
  contains (lit "//") (host ++ tail) = false ->
  _domain_name (scheme ++ host ++ tail) = Ok (scheme ++ host).
Proof.
  intros Hscheme Hhost Htail Hpath.
  unfold _domain_name. rewrite (match_scheme_prefix _ _ Hscheme).
  assert (Hsplit : exists pre,
             scheme = pre ++ lit "//" /\ ~ In "/"%char pre).
  { destruct Hscheme as [->| ->];
      [exists (lit "http:") | exists (lit "https:")];
      (split; [reflexivity|]); simpl; intuition discriminate. }
  destruct Hsplit as (pre & Hpre & Hno). clear Hscheme. subst scheme.
  rewrite <- !app_assoc.
  rewrite split_double_slash by assumption. simpl last.
  now rewrite split_slash_host.
Qed.

Lemma _domain_name_host_witness :
  (lit "https://" = lit "http://" \/ lit "https://" = lit "https://") /\
  ~ In "/"%char (lit "example.com") /\
  (lit "/blog/post" = [] \/ exists t, lit "/blog/post" = "/"%char :: t) /\
  contains (lit "//") (lit "example.com" ++ lit "/blog/post") = false /\
  _domain_name (lit "https://" ++ lit "example.com" ++ lit "/blog/post")
  = Ok (lit "https://" ++ lit "example.com").
Proof.
  assert (H1 : lit "https://" = lit "http://" \/ lit "https://" = lit "https://")
    by (now right).
  assert (H2 : ~ In "/"%char (lit "example.com"))
    by (simpl; intuition discriminate).
  assert (H3 : lit "/blog/post" = [] \/ exists t, lit "/blog/post" = "/"%char :: t)
    by (right; eexists; reflexivity).
  assert (H4 : contains (lit "//") (lit "example.com" ++ lit "/blog/post") = false)
    by reflexivity.
  repeat (split; [assumption|]).
  exact (_domain_name_host _ _ _ H1 H2 H3 H4).
Defined.

(** X12: a URL that starts with neither "http://" nor "https://" makes
    [prepare_text] fail with [AttributeError], whatever the document, even
    one without anchors. *)
Theorem prepare_text_needs_scheme (domain : str) (soup : node) (max_length : Z) :
  startswith (lit "http://") domain = false ->
  startswith (lit "https://") domain = false ->
  _domain_name domain = Raise AttributeError /\
  prepare_text domain soup max_length = Raise AttributeError.
Proof.
  intros H1 H2.
  assert (Hd : _domain_name domain = Raise AttributeError).
  { unfold _domain_name, match_scheme. now rewrite H2, H1. }
  split; [exact Hd|]. unfold prepare_text, _get_urls. now rewrite Hd.
Qed.

Lemma prepare_text_needs_scheme_witness :
  startswith (lit "http://") (lit "example.com") = false /\
  startswith (lit "https://") (lit "example.com") = false /\
  _domain_name (lit "example.com") = Raise AttributeError /\
  prepare_text (lit "example.com") sample_plain 80 = Raise AttributeError.
Proof.
  split; [reflexivity|]. split; [reflexivity|].
  apply (prepare_text_needs_scheme (lit "example.com") sample_plain 80);
    reflexivity.
Defined.

(** ** [_get_urls] *)

Lemma getitem_exn (attrs : list (string * str)) (key : string) (e : exn) :
  getitem attrs key = Raise e -> e = KeyError.
Proof.
  induction attrs as [|[k v] attrs IH]; simpl; [now intros [= <-]|].
  destruct (String.eqb k key); [discriminate | exact IH].
Qed.

Lemma _get_urls_loop_KeyError (domain : str) :
  forall urls r_urls,
    (exists url, In url urls /\ getitem (attrs url) "href" = Raise KeyError) ->
    _get_urls_loop domain urls r_urls = Raise KeyError.
Proof.
  induction urls as [|u urls IH]; intros r_urls (url & Hin & Hurl);
    [destruct Hin|].
  simpl. destruct (getitem (attrs u) "href") as [href|e] eqn:Hu; simpl.
  - apply IH. exists url. split; [|assumption].
    destruct Hin as [->|Hin]; [congruence | assumption].
  - now rewrite (getitem_exn _ _ _ Hu).
Qed.

(** X13: when the URL of the page is well formed, an anchor without
    [href] anywhere in the document makes [prepare_text] fail with
    [KeyError]. *)
Theorem prepare_text_KeyError
        (domain d : str) (soup url : node) (max_length : Z) :
  _domain_name domain = Ok d ->
  In url (find_all "a" soup) ->
  getitem (attrs url) "href" = Raise KeyError ->
  prepare_text domain soup max_length = Raise KeyError.
Proof.
  intros Hd Hin Hurl. unfold prepare_text, _get_urls. rewrite Hd. cbn [bind].
  rewrite _get_urls_loop_KeyError; [reflexivity | eauto].
Qed.

Lemma prepare_text_KeyError_witness :
  _domain_name base_url = Ok (lit "https://example.com") /\
  In anchor_without_href (find_all "a" page_with_named_anchor) /\
  getitem (attrs anchor_without_href) "href" = Raise KeyError /\
  prepare_text base_url page_with_named_anchor 80 = Raise KeyError.
Proof.
  assert (Hin : In anchor_without_href (find_all "a" page_with_named_anchor))
    by (vm_compute; auto).
  split; [vm_compute; reflexivity|]. split; [exact Hin|].
  split; [reflexivity|].
  apply (prepare_text_KeyError base_url (lit "https://example.com")
           page_with_named_anchor anchor_without_href 80);
    [vm_compute; reflexivity | exact Hin | reflexivity].
Defined.

Lemma str_eqb_true (a b : str) : str_eqb a b = true -> a = b.
Proof. unfold str_eqb. now destruct (list_eq_dec ascii_dec a b). Qed.

Lemma update_In_new (d : dict) (key value : str) :
  In (key, value) (update d key value).
Proof.
  induction d as [|[k v] d IH]; simpl; [now left|].
  destruct (str_eqb k key) eqn:E; [|now right].
  apply str_eqb_true in E. subst k. now left.
Qed.

Lemma update_In_old (d : dict) (key value k v : str) :
  In (k, v) d -> k <> key -> In (k, v) (update d key value).
Proof.
  intros Hin Hne. induction d as [|[k' v'] d IH]; simpl; [destruct Hin|].
  destruct (str_eqb k' key) eqn:E.
  - apply str_eqb_true in E. subst k'.
    destruct Hin as [[= -> ->]|Hin]; [congruence | now right].
  - destruct Hin as [Hin|Hin]; [now left | right; now apply IH].
Qed.

Lemma update_In_inv (d : dict) (key value k v : str) :
  In (k, v) (update d key value) -> (k = key /\ v = value) \/ In (k, v) d.
Proof.
  induction d as [|[k' v'] d IH]; simpl.
  - intros [[= <- <-]|[]]. now left.
  - destruct (str_eqb k' key) eqn:E.
    + apply str_eqb_true in E. subst k'.
      intros [[= <- <-]|Hin]; [now left | right; now right].
    + intros [Hin|Hin]; [right; now left|].
      destruct (IH Hin) as [H|H]; [now left | right; now right].
Qed.

Lemma update_keys (d : dict) (key value : str) :
  map fst (update d key value) = map fst d
  \/ (~ In key (map fst d) /\ map fst (update d key value) = map fst d ++ [key]).
Proof.
  induction d as [|[k v] d IH]; simpl.
  - right. split; [tauto | reflexivity].
  - destruct (str_eqb k key) eqn:E; [now left|].
    destruct IH as [IH|[Hout IH]]; simpl; [left; now rewrite IH|].
    right. split; [|now rewrite IH].
    intros [->|H]; [now rewrite str_eqb_refl in E | tauto].
Qed.

Lemma update_NoDup (d : dict) (key value : str) :
  NoDup (map fst d) -> NoDup (map fst (update d key value)).
Proof.
  intros H. destruct (update_keys d key value) as [->|[Hout ->]]; [assumption|].
  apply NoDup_app; [assumption | repeat constructor; tauto|].
  intros x Hx [<-|[]]. tauto.
Qed.

(** What the loop of [_get_urls] adds to the dictionary it starts from. *)
Lemma _get_urls_loop_spec (domain : str) :
  forall urls r_urls d,
    _get_urls_loop domain urls r_urls = Ok d ->
    (NoDup (map fst r_urls) -> NoDup (map fst d)) /\
    (forall k, In k (map fst r_urls) -> In k (map fst d)) /\
    (forall url, In url urls ->
       exists href, getitem (attrs url) "href" = Ok href /\
                    In (bracketed domain href) (map fst d)) /\
    (forall k v, In (k, v) d ->
       In (k, v) r_urls \/
       exists url href,
         In url urls /\ getitem (attrs url) "href" = Ok href /\
         k = bracketed domain href /\ v = text url).
Proof.
  induction urls as [|u urls IH]; intros r_urls d H; simpl in H.
  - injection H as <-. repeat split; auto. intros url [].
  - apply ParserFacts.bind_Ok in H as (href & Hhref & H).
    destruct (IH _ _ H) as (Hnd & Hkeys & Hall & Hfrom).
    repeat split.
    + intros Hr. now apply Hnd, update_NoDup.
    + intros k Hk. apply Hkeys.
      apply in_map_iff in Hk as ([k' v] & <- & Hin). simpl.
      destruct (list_eq_dec ascii_dec k' (bracketed domain href)) as [->|Hne].
      * apply in_map_iff. exists (bracketed domain href, text u).
        split; [reflexivity | apply update_In_new].
      * apply in_map_iff. exists (k', v).
        split; [reflexivity | now apply update_In_old].
    + intros url [<-|Hin]; [|now apply Hall].
      exists href. split; [assumption|]. apply Hkeys.
      apply in_map_iff. exists (bracketed domain href, text u).
      split; [reflexivity | apply update_In_new].
    + intros k v Hin. destruct (Hfrom _ _ Hin) as [Hold|(url & h & Hu & Hh & Hk & Hv)].
      * apply update_In_inv in Hold as [[-> ->]|Hold]; [|now left].
        right. exists u, href. repeat split; auto. now left.
      * right. exists url, h. repeat split; auto. now right.
Qed.

(** X14: when [_get_urls] returns, the keys of its dictionary are pairwise
    distinct bracketed targets, every anchor has the bracketed form of its
    target among the keys, and every entry pairs the bracketed target of
    some anchor with the text of an anchor that has this target. *)
Theorem _get_urls_entries (urls : list node) (domain : str) (prepared_urls : dict) :
  _get_urls urls domain = Ok prepared_urls ->
  exists d,
    _domain_name domain = Ok d /\
    NoDup (map fst prepared_urls) /\
    (forall url, In url urls ->
       exists href, getitem (attrs url) "href" = Ok href /\
                    In (bracketed d href) (map fst prepared_urls)) /\
    (forall k v, In (k, v) prepared_urls ->
       exists url href,
         In url urls /\ getitem (attrs url) "href" = Ok href /\
         k = bracketed d href /\ v = text url).
Proof.
  unfold _get_urls. intros H. apply ParserFacts.bind_Ok in H as (d & Hd & H).
  exists d. split; [assumption|].
  destruct (_get_urls_loop_spec _ _ _ _ H) as (Hnd & _ & Hall & Hfrom).
  repeat split.
  - apply Hnd. constructor.
  - exact Hall.
  - intros k v Hin. destruct (Hfrom _ _ Hin) as [[]|Hex]. exact Hex.
Qed.

Lemma _get_urls_entries_witness :
  _get_urls [anchor_a; anchor_b] base_url
  = Ok [(lit "[https://example.com/a]", lit "About");
        (lit "[https://example.com/b]", lit "About")] /\
  exists d,
    _domain_name base_url = Ok d /\
    NoDup (map fst [(lit "[https://example.com/a]", lit "About");
                    (lit "[https://example.com/b]", lit "About")]) /\
    (forall url, In url [anchor_a; anchor_b] ->
       exists href, getitem (attrs url) "href" = Ok href /\
                    In (bracketed d href)
                       (map fst [(lit "[https://example.com/a]", lit "About");
                                 (lit "[https://example.com/b]", lit "About")])) /\
    (forall k v, In (k, v) [(lit "[https://example.com/a]", lit "About");
                            (lit "[https://example.com/b]", lit "About")] ->
       exists url href,
         In url [anchor_a; anchor_b] /\ getitem (attrs url) "href" = Ok href /\
         k = bracketed d href /\ v = text url).
Proof.
  split; [vm_compute; reflexivity|].
  apply (_get_urls_entries [anchor_a; anchor_b] base_url).
  vm_compute; reflexivity.
Defined.

Lemma _get_urls_loop_split (domain : str) :
  forall urls1 urls2 r_urls d,
    _get_urls_loop domain (urls1 ++ urls2) r_urls = Ok d ->
    exists r1,
      _get_urls_loop domain urls1 r_urls = Ok r1 /\
      _get_urls_loop domain urls2 r1 = Ok d.
Proof.
  induction urls1 as [|u urls1 IH]; intros urls2 r_urls d H; simpl in *.
  - eauto.
  - apply ParserFacts.bind_Ok in H as (href & Hhref & H). rewrite Hhref. simpl.
    now apply IH.
Qed.

Lemma _get_urls_loop_keeps (domain k v : str) :
  forall urls r_urls d,
    _get_urls_loop domain urls r_urls = Ok d ->
    In (k, v) r_urls ->
    (forall url href, In url urls -> getitem (attrs url) "href" = Ok href ->
                      bracketed domain href <> k) ->
    In (k, v) d.
Proof.
  induction urls as [|u urls IH]; intros r_urls d H Hin Hother; simpl in H.
  - now injection H as <-.
  - apply ParserFacts.bind_Ok in H as (href & Hhref & H).
    apply (IH _ _ H).
    + apply update_In_old; [assumption|].
      intros ->. apply (Hother u href); auto. now left.
    + intros url h Hu. apply Hother. now right.
Qed.

(** X15: last write wins among the anchors with the same target: the text
    recorded for a bracketed target is the text of the last anchor that
    has it. *)
Theorem _get_urls_last_anchor_wins
        (before after : list node) (url : node) (domain d href : str)
        (prepared_urls : dict) :
  _get_urls (before ++ url :: after) domain = Ok prepared_urls ->
  _domain_name domain = Ok d ->
  getitem (attrs url) "href" = Ok href ->
  (forall later h, In later after -> getitem (attrs later) "href" = Ok h ->
                   bracketed d h <> bracketed d href) ->
  In (bracketed d href, text url) prepared_urls.
Proof.
  unfold _get_urls. intros H Hd Hhref Hlast. rewrite Hd in H. cbn [bind] in H.
  apply _get_urls_loop_split in H as (r1 & _ & H).
  simpl in H. rewrite Hhref in H. cbn [bind] in H.
  apply (_get_urls_loop_keeps _ _ _ _ _ _ H); [apply update_In_new|].
  intros later h Hin Hh. now apply (Hlast later h).
Qed.

Lemma _get_urls_last_anchor_wins_witness :
  _get_urls ([anchor_a] ++ anchor_contact :: [anchor_b]) base_url
  = Ok [(lit "[https://example.com/a]", lit "Contact");
        (lit "[https://example.com/b]", lit "About")] /\
  _domain_name base_url = Ok (lit "https://example.com") /\
  getitem (attrs anchor_contact) "href" = Ok (lit "/a") /\
  (forall later h, In later [anchor_b] ->
                   getitem (attrs later) "href" = Ok h ->
                   bracketed (lit "https://example.com") h
                   <> bracketed (lit "https://example.com") (lit "/a")) /\
  In (bracketed (lit "https://example.com") (lit "/a"), text anchor_contact)
     [(lit "[https://example.com/a]", lit "Contact");
      (lit "[https://example.com/b]", lit "About")].
Proof.
  assert (Hlast : forall later h, In later [anchor_b] ->
                   getitem (attrs later) "href" = Ok h ->
                   bracketed (lit "https://example.com") h
                   <> bracketed (lit "https://example.com") (lit "/a")).
  { intros later h [<-|[]] [= <-]. vm_compute. discriminate. }
  repeat (split; [solve [vm_compute; reflexivity] || exact Hlast|]).
  apply (_get_urls_last_anchor_wins [anchor_a] [anchor_b] anchor_contact
           base_url (lit "https://example.com") (lit "/a"));
    solve [vm_compute; reflexivity] || exact Hlast.
Defined.


(** ** [_add_urls] *)

Lemma re_sub_plain (description url s : str) :
  forallb plain_char description = true ->
  existsb (Ascii.eqb "\"%char) (description ++ lit " " ++ url) = false ->
  re_sub description (description ++ lit " " ++ url) s
  = Ok (replace description (description ++ lit " " ++ url) s).
Proof. intros Hp Hb. unfold re_sub. now rewrite Hp, Hb. Qed.

(** X16: a text in which none of the display texts occurs comes back
    from [_add_urls] as it went in. *)
Theorem _add_urls_absent (text : str) (prepared_urls : dict) :
  Forall (fun entry =>
            snd entry <> [] /\
            forallb plain_char (snd entry) = true /\
            existsb (Ascii.eqb "\"%char) (snd entry ++ lit " " ++ fst entry) = false /\
            contains (snd entry) text = false) prepared_urls ->
  _add_urls text prepared_urls = Ok text.
Proof.
  induction 1 as [|[url description] rest (Hne & Hp & Hb & Hc) _ IH];
    [reflexivity|].
  simpl in *. rewrite (re_sub_plain _ _ _ Hp Hb). cbn [bind].
  rewrite replace_nonempty by assumption.
  now rewrite replace_from_absent.
Qed.

Lemma _add_urls_absent_witness :
  Forall (fun entry =>
            snd entry <> [] /\
            forallb plain_char (snd entry) = true /\
            existsb (Ascii.eqb "\"%char) (snd entry ++ lit " " ++ fst entry) = false /\
            contains (snd entry) (lit "See the news") = false)
         [(lit "[https://example.com/a]", lit "About");
          (lit "[https://example.com/b]", lit "Contact")] /\
  _add_urls (lit "See the news")
            [(lit "[https://example.com/a]", lit "About");
             (lit "[https://example.com/b]", lit "Contact")]
  = Ok (lit "See the news").
Proof.
  assert (H : Forall (fun entry =>
            snd entry <> [] /\
            forallb plain_char (snd entry) = true /\
            existsb (Ascii.eqb "\"%char) (snd entry ++ lit " " ++ fst entry) = false /\
            contains (snd entry) (lit "See the news") = false)
         [(lit "[https://example.com/a]", lit "About");
          (lit "[https://example.com/b]", lit "Contact")]).
  { repeat constructor; solve [vm_compute; reflexivity | vm_compute; discriminate]. }
  split; [exact H|].
  apply (_add_urls_absent (lit "See the news")
           [(lit "[https://example.com/a]", lit "About");
            (lit "[https://example.com/b]", lit "Contact")] H).
Defined.

(** X17: an anchor without text, as around an image, has the empty
    pattern, which matches before every character and at the end of the
    text: its marker is inserted at each of these places. *)
Theorem _add_urls_empty_description (text url : str) :
  existsb (Ascii.eqb "\"%char) url = false ->
  _add_urls text [(url, [])]
  = Ok ((lit " " ++ url) ++ flat_map (fun c => c :: lit " " ++ url) text)
  /\ len ((lit " " ++ url) ++ flat_map (fun c => c :: lit " " ++ url) text)
     = len text + (len text + 1) * (1 + len url).
Proof.
  intros Hb. split.
  - simpl. unfold re_sub. simpl. now rewrite Hb.
  - assert (Hm : len (lit " " ++ url) = 1 + len url).
    { unfold len. simpl List.length. lia. }
    revert Hm. generalize (lit " " ++ url). intros m Hm.
    rewrite len_app, Hm.
    assert (Hflat : len (flat_map (fun c => c :: m) text)
                    = len text * (2 + len url)).
    { induction text as [|c text IH]; [reflexivity|].
      change (flat_map (fun c0 => c0 :: m) (c :: text))
        with ((c :: m) ++ flat_map (fun c0 => c0 :: m) text).
      rewrite len_app, IH. unfold len in *. simpl List.length. lia. }
    rewrite Hflat. lia.
Qed.

Lemma _add_urls_empty_description_witness :
  _get_urls [anchor_image] base_url = Ok [(lit "[https://example.com/img]", [])] /\
  existsb (Ascii.eqb "\"%char) (lit "[https://example.com/img]") = false /\
  _add_urls (lit "Hi") [(lit "[https://example.com/img]", [])]
  = Ok (lit " [https://example.com/img]H [https://example.com/img]i [https://example.com/img]").
Proof.
  repeat (split; [solve [vm_compute; reflexivity]|]).
  exact (proj1 (_add_urls_empty_description (lit "Hi")
                  (lit "[https://example.com/img]") eq_refl)).
Defined.

(** X18: [_add_urls] puts the marker behind every occurrence of a display
    text that the left-to-right scan meets, not only behind the anchor
    itself: the text in front of the first occurrence is copied, the
    marker follows the occurrence, and the scan goes on behind it. *)
Theorem _add_urls_every_occurrence (url description a b : str) :
  description <> [] ->
  forallb plain_char description = true ->
  existsb (Ascii.eqb "\"%char) (description ++ lit " " ++ url) = false ->
  (forall i, (i < List.length a)%nat ->
             startswith description (skipn i (a ++ description ++ b)) = false) ->
  exists rest,
    _add_urls b [(url, description)] = Ok rest /\
    _add_urls (a ++ description ++ b) [(url, description)]
    = Ok (a ++ description ++ lit " " ++ url ++ rest).
Proof.
  intros Hne Hp Hb Hfirst.
  exists (replace_from description (description ++ lit " " ++ url) 0 b).
  cbn [_add_urls]. rewrite !(re_sub_plain _ _ _ Hp Hb). cbn [bind].
  rewrite !replace_nonempty by assumption. split; [reflexivity|].
  rewrite replace_from_copy by assumption.
  rewrite replace_from_match by assumption.
  now rewrite <- !app_assoc.
Qed.

Lemma _add_urls_every_occurrence_witness :
  lit "About" <> [] /\
  forallb plain_char (lit "About") = true /\
  existsb (Ascii.eqb "\"%char) (lit "About" ++ lit " " ++ lit "[https://example.com/a]")
  = false /\
  (forall i, (i < List.length (lit "See "))%nat ->
             startswith (lit "About")
               (skipn i (lit "See " ++ lit "About" ++ lit " or About us")) = false) /\
  exists rest,
    _add_urls (lit " or About us") [(lit "[https://example.com/a]", lit "About")]
    = Ok rest /\
    _add_urls (lit "See " ++ lit "About" ++ lit " or About us")
              [(lit "[https://example.com/a]", lit "About")]
    = Ok (lit "See " ++ lit "About" ++ lit " " ++ lit "[https://example.com/a]" ++ rest).
Proof.
  assert (H1 : lit "About" <> []) by (vm_compute; discriminate).
  assert (H2 : forall i, (i < List.length (lit "See "))%nat ->
             startswith (lit "About")
               (skipn i (lit "See " ++ lit "About" ++ lit " or About us")) = false).
  { intros i Hi. simpl in Hi.
    destruct i as [|[|[|[|i]]]]; [vm_compute; reflexivity ..| lia]. }
  repeat (split; [solve [vm_compute; reflexivity] || exact H1 || exact H2|]).
  apply (_add_urls_every_occurrence (lit "[https://example.com/a]") (lit "About")
           (lit "See ") (lit " or About us") H1 eq_refl eq_refl H2).
Defined.

(** ** Paragraph separation *)

(** The text with its line breaks deleted. *)
Definition without_newlines (s : str) : str :=
  filter (fun c => negb (Ascii.eqb c newline)) s.

Lemma without_newlines_app (a b : str) :
  without_newlines (a ++ b) = without_newlines a ++ without_newlines b.
Proof. apply filter_app. Qed.

Lemma without_newlines_skipn_nil (k : nat) : without_newlines (skipn k []) = [].
Proof. now destruct k. Qed.

(** A replacement that puts line breaks around each occurrence changes
    nothing else; [skip] characters are those of an occurrence already
    written out. *)
Lemma replace_from_surround (old : str) :
  old <> [] ->
  forall s skip,
    without_newlines
      (replace_from old ([newline] ++ old ++ [newline]) skip s)
    = without_newlines (skipn skip s).
Proof.
  intros Hne. induction s as [|c s IH]; intros skip.
  - now rewrite without_newlines_skipn_nil.
  - destruct skip as [|k]; cbn [replace_from skipn]; [|apply IH].
    destruct (startswith old (c :: s)) eqn:E.
    + rewrite !without_newlines_app, IH.
      apply startswith_true in E.
      assert (Hskip : skipn (List.length old - 1) s
                      = skipn (List.length old) (c :: s)).
      { destruct old as [|o old]; [congruence|].
        cbn [List.length skipn]. now replace (S (List.length old) - 1)%nat with (List.length old) by lia. }
      rewrite Hskip. rewrite E at 2. rewrite without_newlines_app.
      change (without_newlines [newline]) with (@nil ascii).
      now rewrite app_nil_r.
    + change (c :: replace_from old ([newline] ++ old ++ [newline]) 0 s)
        with ([c] ++ replace_from old ([newline] ++ old ++ [newline]) 0 s).
      change (c :: s) with ([c] ++ s).
      now rewrite !without_newlines_app, IH.
Qed.

Lemma separate_only_breaks (string p_text : str) :
  without_newlines (separate string p_text) = without_newlines string.
Proof.
  unfold separate. destruct (str_eqb p_text []); [reflexivity|].
  destruct (strip p_text) as [|c t] eqn:E.
  - unfold replace. simpl.
    induction string as [|x string IH]; [reflexivity|].
    simpl. destruct (Ascii.eqb x newline); simpl; [exact IH | f_equal; exact IH].
  - rewrite replace_nonempty by discriminate.
    now rewrite replace_from_surround by discriminate.
Qed.

(** X19: the separation of the paragraphs only inserts line breaks: with
    the line breaks deleted, the text after the step is the text before
    it. *)
Theorem separate_paragraphs_only_breaks (string : str) (paragr : list node) :
  without_newlines (separate_paragraphs string paragr) = without_newlines string.
Proof.
  unfold separate_paragraphs. revert string.
  induction paragr as [|p paragr IH]; intros string; [reflexivity|].
  simpl. now rewrite IH, separate_only_breaks.
Qed.

(** ** Tokens *)

(** A character that a word or a separator of the pattern can match. *)
Definition word_or_break (c : ascii) : bool := isword c || isbreak c.

Lemma match_token_word_or_break (c : ascii) (s : str) :
  word_or_break c = true -> match_token (c :: s) <> None.
Proof.
  unfold word_or_break, match_token. intros H.
  destruct (match_url (c :: s)); [discriminate|].
  unfold match_word, match_break. simpl takewhile.
  destruct (isword c); [discriminate|].
  simpl in H. now rewrite H.
Qed.

Lemma findall_covers (s : str) :
  forallb word_or_break s = true -> List.concat (findall s) = s.
Proof.
  pattern s, (findall s). apply findall_scan_ind; clear s.
  - reflexivity.
  - intros c s Hnone _ H. simpl in H. apply andb_prop in H as [Hc _].
    now destruct (match_token_word_or_break c s Hc).
  - intros tok rest _ _ IH H. rewrite forallb_app in H.
    apply andb_prop in H as [_ H]. simpl. now rewrite IH.
Qed.

(** X20: on a text made of word characters and separators the tokens
    cover the text: nothing is passed over by the scan, and every token
    is a word or one separator, none a bracketed link. *)
Theorem findall_lossless (s : str) :
  forallb word_or_break s = true ->
  List.concat (findall s) = s /\
  Forall (fun tok => is_word tok \/ is_break tok) (findall s).
Proof.
  intros H. pose proof (findall_covers s H) as Hcat. split; [exact Hcat|].
  pose proof (findall_kinds s) as Hkinds.
  apply Forall_forall. intros tok Hin.
  destruct (proj1 (Forall_forall _ _) Hkinds tok Hin) as [Hurl|Hrest];
    [exfalso | exact Hrest].
  destruct Hurl as (x & R & _ & -> & _).
  assert (Hbr : In "["%char s).
  { rewrite <- Hcat. apply in_concat. eexists. split; [exact Hin | now left]. }
  apply (proj1 (forallb_forall _ _) H) in Hbr. discriminate.
Qed.

Lemma findall_lossless_witness :
  forallb word_or_break (lit "Hello, world - (again)!") = true /\
  List.concat (findall (lit "Hello, world - (again)!"))
  = lit "Hello, world - (again)!" /\
  Forall (fun tok => is_word tok \/ is_break tok)
         (findall (lit "Hello, world - (again)!")).
Proof.
  split; [vm_compute; reflexivity|].
  apply (findall_lossless (lit "Hello, world - (again)!")).
  vm_compute; reflexivity.
Defined.

(** X21: the characters that the scan passes over are lost once: the
    tokens of the concatenated tokens concatenate to the same text. *)
Theorem findall_concat_stable (s : str) :
  List.concat (findall (List.concat (findall s))) = List.concat (findall s).
Proof.
  exact (well_cut_stable (findall s) (findall_well_cut s) [] eq_refl).
Qed.

(** ** Wrapping *)

Lemma filter_nonspace_lstrip (s : str) :
  filter nonspace (lstrip s) = filter nonspace s.
Proof.
  induction s as [|c s IH]; [reflexivity|].
  cbn [lstrip]. destruct (isspace c) eqn:E; [|reflexivity].
  assert (Hc : nonspace c = false) by (unfold nonspace; now rewrite E).
  cbn [filter]. now rewrite Hc.
Qed.

Lemma filter_nonspace_blank (b : str) :
  forallb isspace b = true -> filter nonspace b = [].
Proof.
  induction b as [|x b IH]; [reflexivity|]. cbn [forallb filter]. intros H.
  apply andb_prop in H as [Hx H].
  assert (Hc : nonspace x = false) by (unfold nonspace; now rewrite Hx).
  rewrite Hc. now apply IH.
Qed.

Lemma filter_nonspace_newline : filter nonspace [newline] = [].
Proof. reflexivity. Qed.

Lemma wrap_step_nonspace (max_length : Z) (state : Z * str) (word : str) :
  filter nonspace (snd (wrap_step max_length state word))
  = filter nonspace (snd state) ++ filter nonspace word.
Proof.
  destruct state as [length new_string]. unfold wrap_step.
  set (w := if (length =? 1)%Z then lstrip word else word).
  assert (Hw : filter nonspace w = filter nonspace word).
  { subst w. destruct (length =? 1)%Z; [apply filter_nonspace_lstrip | reflexivity]. }
  destruct (str_eqb w [newline]);
    repeat match goal with
           | |- context [if ?b then _ else _] => destruct b
           end;
    cbn [snd]; rewrite ?filter_app, ?filter_nonspace_newline, ?Hw, ?app_nil_r;
    reflexivity.
Qed.

Lemma wrap_fold_nonspace (max_length : Z) :
  forall words state,
    filter nonspace (snd (fold_left (wrap_step max_length) words state))
    = filter nonspace (snd state) ++ filter nonspace (List.concat words).
Proof.
  induction words as [|w words IH]; intros state; simpl.
  - now rewrite app_nil_r.
  - now rewrite IH, wrap_step_nonspace, filter_app, app_assoc.
Qed.

(** Replacing a run of blanks by blanks touches blanks only. *)
Lemma replace_from_blanks (old new : str) :
  old <> [] -> forallb isspace old = true -> forallb isspace new = true ->
  forall s skip,
    forallb isspace (firstn skip s) = true ->
    filter nonspace (replace_from old new skip s) = filter nonspace s.
Proof.
  intros Hne Hold Hnew.
  induction s as [|c s IH]; intros skip Hskip; [reflexivity|].
  destruct skip as [|k]; cbn [replace_from].
  - destruct (startswith old (c :: s)) eqn:E.
    + apply startswith_true in E.
      destruct old as [|o old]; [congruence|].
      cbn [List.length skipn app] in E. injection E as <- E.
      cbn [forallb] in Hold. apply andb_prop in Hold as [Ho Hold].
      rewrite filter_app, (filter_nonspace_blank _ Hnew). cbn [app].
      assert (Hc : nonspace c = false) by (unfold nonspace; now rewrite Ho).
      cbn [filter]. rewrite Hc. apply IH.
      cbn [List.length]. replace (S (List.length old) - 1)%nat
        with (List.length old) by lia.
      rewrite E. rewrite firstn_app, firstn_all, Nat.sub_diag. cbn [firstn].
      now rewrite app_nil_r.
    + cbn [filter]. now rewrite IH.
  - cbn [firstn forallb] in Hskip. apply andb_prop in Hskip as [Hc' Hskip].
    assert (Hc : nonspace c = false) by (unfold nonspace; now rewrite Hc').
    cbn [filter]. rewrite Hc. now apply IH.
Qed.

(** X22: wrapping moves and drops blanks only: the characters of the
    wrapped text that are not blank are those of the tokens, in their
    order, for every [max_length]. *)
Theorem wrap_keeps_nonspace (text_with_urls : str) (max_length : Z) :
  filter nonspace (wrap text_with_urls max_length)
  = filter nonspace (List.concat (findall text_with_urls)).
Proof.
  unfold wrap. rewrite replace_nonempty by discriminate.
  rewrite replace_from_blanks; try reflexivity; try discriminate.
  unfold wrap_loop. now rewrite wrap_fold_nonspace.
Qed.

(** X23: a text of word characters and separators on one line, not
    starting with a blank and shorter than [max_length] by at least two,
    is returned unchanged. *)
Theorem wrap_short_line (text_with_urls : str) (max_length : Z) :
  forallb word_or_break text_with_urls = true ->
  ~ In newline text_with_urls ->
  lstrip text_with_urls = text_with_urls ->
  1 + len text_with_urls < max_length ->
  wrap text_with_urls max_length = text_with_urls.
Proof.
  intros Hwb Hnl Hstrip Hlen. unfold wrap.
  pose proof (findall_covers _ Hwb) as Hcat.
  rewrite wrap_loop_fill; rewrite ?Hcat; try assumption.
  - now apply replace_newlines_id.
  - apply findall_shape.
Qed.

Lemma wrap_short_line_witness :
  forallb word_or_break (lit "Hello, world.") = true /\
  ~ In newline (lit "Hello, world.") /\
  lstrip (lit "Hello, world.") = lit "Hello, world." /\
  1 + len (lit "Hello, world.") < 15 /\
  wrap (lit "Hello, world.") 15 = lit "Hello, world.".
Proof.
  assert (Hnl : ~ In newline (lit "Hello, world.")).
  { intros H. vm_compute in H. intuition discriminate. }
  repeat (split; [solve [vm_compute; reflexivity] || exact Hnl|]).
  apply (wrap_short_line (lit "Hello, world.") 15);
    solve [vm_compute; reflexivity] || exact Hnl.
Defined.

(** ** The whole of [prepare_text] *)

Lemma replace_newline_empty (s : str) :
  replace [newline] [] s = without_newlines s.
Proof.
  unfold replace. induction s as [|c s IH]; [reflexivity|].
  cbn [replace_from startswith without_newlines filter].
  rewrite Ascii.eqb_sym. destruct (Ascii.eqb c newline); cbn [andb negb app].
  - exact IH.
  - f_equal. exact IH.
Qed.

Lemma without_newlines_spec (s : str) :
  ~ In newline (without_newlines s) /\
  forall f, forallb f s = true -> forallb f (without_newlines s) = true.
Proof.
  split.
  - intros H. apply filter_In in H as [_ H].
    now rewrite Ascii.eqb_refl in H.
  - intros f H. apply forallb_forall. intros x Hx.
    apply filter_In in Hx as [Hx _].
    now apply (proj1 (forallb_forall f s) H).
Qed.

Lemma lstrip_suffix (s : str) : exists a, s = a ++ lstrip s.
Proof.
  induction s as [|c s [a IH]]; [now exists []|].
  cbn [lstrip]. destruct (isspace c).
  - exists (c :: a). simpl. now f_equal.
  - now exists [].
Qed.

Lemma strip_infix (s : str) : exists a b, s = a ++ strip s ++ b.
Proof.
  destruct (lstrip_suffix s) as [a Ha].
  destruct (lstrip_suffix (rev (lstrip s))) as [b Hb].
  exists a, (rev b). unfold strip, rstrip.
  rewrite <- rev_app_distr, <- Hb, rev_involutive. exact Ha.
Qed.

Lemma lstrip_head (s : str) (c : ascii) (t : str) :
  lstrip s = c :: t -> isspace c = false.
Proof.
  induction s as [|x s IH]; [discriminate|]. cbn [lstrip].
  destruct (isspace x) eqn:E; [exact IH|]. now intros [= <- _].
Qed.

Lemma lstrip_app_nonspace (c : ascii) (b : str) :
  isspace c = false ->
  forall a, lstrip (a ++ c :: b) = lstrip a ++ c :: b.
Proof.
  intros Hc. induction a as [|x a IH]; cbn [app lstrip].
  - now rewrite Hc.
  - destruct (isspace x); [exact IH | reflexivity].
Qed.

Lemma lstrip_strip (s : str) : lstrip (strip s) = strip s.
Proof.
  unfold strip, rstrip. destruct (lstrip s) as [|c t] eqn:E; [reflexivity|].
  apply lstrip_head in E. cbn [rev].
  rewrite (lstrip_app_nonspace c [] E), rev_app_distr. cbn [rev app lstrip].
  now rewrite E.
Qed.

Lemma word_or_break_no_backslash (s : str) :
  forallb word_or_break s = true -> ~ In "\"%char s.
Proof.
  intros H Hin. apply (proj1 (forallb_forall _ _) H) in Hin. discriminate.
Qed.

(** X24: a page without anchors and paragraphs whose text consists of
    word characters and separators and fits on one line comes out of
    [prepare_text] as its text with the line breaks deleted and the
    blanks at both ends trimmed. *)
Theorem prepare_text_plain_page
        (domain d : str) (soup : node) (max_length : Z) :
  _domain_name domain = Ok d ->
  find_all "a" soup = [] ->
  find_all "p" soup = [] ->
  forallb word_or_break (text soup) = true ->
  1 + len (strip (replace [newline] [] (text soup))) < max_length ->
  prepare_text domain soup max_length
  = Ok (strip (replace [newline] [] (text soup))).
Proof.
  intros Hd Ha Hp Hwb Hlen. unfold prepare_text, _get_urls.
  rewrite Ha, Hp, Hd. cbn [bind _get_urls_loop separate_paragraphs fold_left].
  revert Hlen. rewrite replace_newline_empty.
  destruct (without_newlines_spec (text soup)) as [Hnl Hall].
  specialize (Hall _ Hwb).
  destruct (strip_infix (without_newlines (text soup))) as (a & b & Hinfix).
  set (string := strip (without_newlines (text soup))) in *.
  assert (Hwb' : forallb word_or_break string = true).
  { rewrite Hinfix, !forallb_app in Hall.
    apply andb_prop in Hall as [_ Hall]. now apply andb_prop in Hall as [Hall _]. }
  assert (Hnl' : ~ In newline string).
  { intros H. apply Hnl. rewrite Hinfix. apply in_or_app. right.
    apply in_or_app. now left. }
  intros Hlen.
  assert (Hsame : replace (lit "\s+") (lit " ") string = string).
  { rewrite replace_nonempty by discriminate.
    apply replace_from_absent, contains_absent_head.
    now apply word_or_break_no_backslash. }
  rewrite Hsame. cbn [_add_urls bind]. f_equal. unfold wrap.
  pose proof (findall_covers _ Hwb') as Hcat.
  rewrite wrap_loop_fill; rewrite ?Hcat; try assumption;
    first [ apply findall_shape | apply lstrip_strip
          | now apply replace_newlines_id ].
Qed.

(** A page whose only text is "Hello, world." on a line of its own,
    indented, partly in bold. *)
Definition sample_note : node :=
  document [html [div [NavigableString ([newline] ++ lit "  Hello, ");
                       Tag "b" [] [Parser.text "world."];
                       NavigableString [newline]]]].

Lemma prepare_text_plain_page_witness :
  _domain_name base_url = Ok (lit "https://example.com") /\
  find_all "a" sample_note = [] /\
  find_all "p" sample_note = [] /\
  forallb word_or_break (text sample_note) = true /\
  1 + len (strip (replace [newline] [] (text sample_note))) < 80 /\
  prepare_text base_url sample_note 80 = Ok (lit "Hello, world.").
Proof.
  repeat (split; [solve [vm_compute; reflexivity]|]).
  exact (prepare_text_plain_page base_url (lit "https://example.com")
           sample_note 80 eq_refl eq_refl eq_refl eq_refl eq_refl).
Defined.

End FormatterExtras.
